(** * MacOptics: dispersion analysis for ultrafast pulse design

    A shallow embedding of the chromatic dispersion engine of the web
    application: the Sellmeier registry, the refractive index evaluator,
    the finite-difference derivative estimators, the GDD and TOD
    calculators, the pulse broadening predictor and the stack aggregator.

    A JavaScript [number] is an IEEE 754 binary64 value, so numbers are
    Rocq's primitive [float]: the operators [+ - * /] and the comparisons
    are those of the source, and every definition below runs on the same
    values as the source.  [Math.sqrt] is the IEEE 754 square root, as in
    every engine; [Math.pow] is left open (see [Engine]).  Universal
    statements go through [Prim2SF] and [SpecFloat], the executable
    specification of the binary64 operations. *)

From Stdlib Require Import ZArith Bool List Ascii String Lia.
From Stdlib Require Import Floats.
Import ListNotations.

Set Warnings "-inexact-float".
Local Open Scope float_scope.

(** ** JavaScript numbers and the [Math] object *)

Definition number := float.

(** [Math.PI] and [Math.LN2]: the binary64 values nearest to pi and ln 2. *)
Definition Math_PI : number := 3.141592653589793.
Definition Math_LN2 : number := 0.6931471805599453.

Definition is_pzero (x : number) : bool :=
  match classify x with PZero => true | _ => false end.

Definition is_nzero (x : number) : bool :=
  match classify x with NZero => true | _ => false end.

(** [Math.max] as ECMAScript states it: start from -Infinity, walk the
    arguments; a NaN argument makes the result NaN, +0 beats -0, and a
    strictly greater argument replaces the running maximum. *)
Fixpoint Math_max_from (highest : number) (coerced : list number) : number :=
  match coerced with
  | [] => highest
  | x :: rest =>
      if is_nan x then nan
      else
        let highest := if is_pzero x && is_nzero highest then zero else highest in
        let highest := if highest <? x then x else highest in
        Math_max_from highest rest
  end.

Definition Math_max (args : list number) : number :=
  Math_max_from neg_infinity args.

Definition Math_sqrt (x : number) : number := sqrt x.

(** ** JavaScript strings

    Strings are sequences of code units below 256 (ASCII and Latin-1),
    which covers every key of the registry. *)

Local Open Scope N_scope.

Definition toLowerCase_unit (c : ascii) : ascii :=
  let n := N_of_ascii c in
  if ((65 <=? n) && (n <=? 90))
     || ((192 <=? n) && (n <=? 222) && negb (n =? 215))
  then ascii_of_N (n + 32)
  else c.

(** White space and line terminators stripped by [String.prototype.trim]:
    TAB, LF, VT, FF, CR, SP and NBSP. *)
Definition is_white_space (c : ascii) : bool :=
  let n := N_of_ascii c in
  ((9 <=? n) && (n <=? 13)) || (n =? 32) || (n =? 160).

Local Close Scope N_scope.

Fixpoint toLowerCase (s : string) : string :=
  match s with
  | EmptyString => EmptyString
  | String c r => String (toLowerCase_unit c) (toLowerCase r)
  end.

Fixpoint trimStart (s : string) : string :=
  match s with
  | EmptyString => EmptyString
  | String c r => if is_white_space c then trimStart r else s
  end.

Fixpoint trimEnd (s : string) : string :=
  match s with
  | EmptyString => EmptyString
  | String c r =>
      match trimEnd r with
      | EmptyString => if is_white_space c then EmptyString else String c EmptyString
      | r' => String c r'
      end
  end.

Definition trim (s : string) : string := trimEnd (trimStart s).

(** Own-property lookup in an object literal used as a dictionary. *)
Fixpoint lookup {V : Type} (key : string) (table : list (string * V)) : option V :=
  match table with
  | [] => None
  | (k, v) :: rest => if String.eqb k key then Some v else lookup key rest
  end.

(** ** Sellmeier registry *)

Definition triple : Type := number * number * number.

Definition at3 (t : triple) (i : nat) : number :=
  let '(x0, x1, x2) := t in
  match i with
  | 0%nat => x0
  | 1%nat => x1
  | _ => x2
  end.

Record SellmeierCoeffs : Type := { B : triple; C : triple }.

Local Open Scope string_scope.

Definition coeffs_BK7 : SellmeierCoeffs :=
  {| B := (1.03961212, 0.231792344, 1.01046945);
     C := (0.00600069867, 0.0200179144, 103.560653) |}.
Definition coeffs_SF11 : SellmeierCoeffs :=
  {| B := (1.73848403, 0.31116824, 1.17490871);
     C := (0.0133711172, 0.0619001176, 121.419942) |}.
Definition coeffs_Silica : SellmeierCoeffs :=
  {| B := (0.6961663, 0.4079426, 0.8974794);
     C := (0.004679148, 0.01351206, 97.93432) |}.
Definition coeffs_F2 : SellmeierCoeffs :=
  {| B := (1.31038764, 0.196681836, 0.966129764);
     C := (0.00958633072, 0.0457627625, 99.2753302) |}.
Definition coeffs_SF10 : SellmeierCoeffs :=
  {| B := (1.61625974, 0.259229334, 0.96887106);
     C := (0.0106200162, 0.0473625942, 119.248795) |}.
Definition coeffs_BAF10 : SellmeierCoeffs :=
  {| B := (1.5851495, 0.143571385, 1.08521269);
     C := (0.00909730952, 0.0424520636, 105.613573) |}.
Definition coeffs_LAK9 : SellmeierCoeffs :=
  {| B := (1.41673927, 0.126605356, 1.28217827);
     C := (0.00906333117, 0.0493226978, 95.6403971) |}.

(** Sellmeier coefficients (wavelength in micrometres). *)
Definition SELLMEIER : list (string * SellmeierCoeffs) :=
  [ ("N-BK7", coeffs_BK7); ("BK7", coeffs_BK7);
    ("N-SF11", coeffs_SF11); ("SF11", coeffs_SF11);
    ("Fused Silica", coeffs_Silica); ("Silica", coeffs_Silica);
    ("F2", coeffs_F2); ("N-SF5", coeffs_F2);
    ("N-SF10", coeffs_SF10);
    ("N-BAF10", coeffs_BAF10);
    ("N-LAK9", coeffs_LAK9) ].

(** Material names (lowercase) to Sellmeier key. *)
Definition MATERIAL_TO_SELLMEIER : list (string * string) :=
  [ ("n-bk7", "N-BK7"); ("bk7", "N-BK7"); ("nbk7", "N-BK7");
    ("n-sf11", "N-SF11"); ("sf11", "N-SF11");
    ("fused silica", "Fused Silica"); ("fused-silica", "Fused Silica");
    ("silica", "Fused Silica");
    ("f2", "F2"); ("n-sf5", "N-SF5"); ("n-sf10", "N-SF10");
    ("n-baf10", "N-BAF10"); ("baf10", "N-BAF10");
    ("n-lak9", "N-LAK9"); ("lak9", "N-LAK9") ].

(** [getSellmeier]: [null] is [None].  A name inherited from
    [Object.prototype] (such as [constructor]) yields a non-string alias
    that is no key of [SELLMEIER], hence [null] as for an absent name. *)
Definition getSellmeier (material : string) : option SellmeierCoeffs :=
  match lookup (trim (toLowerCase material)) MATERIAL_TO_SELLMEIER with
  | Some key => lookup key SELLMEIER
  | None => None
  end.

Local Close Scope string_scope.

(** ** Refractive index evaluator *)

(** Refractive index from Sellmeier; [lambdaNm] in nm. *)
Definition nFromSellmeier (lambdaNm : number) (coeffs : SellmeierCoeffs) : number :=
  let lam := lambdaNm * 1e-3 in
  let lam2 := lam * lam in
  let n2 :=
    fold_left
      (fun n2 i => n2 + (at3 (B coeffs) i * lam2) / (lam2 - at3 (C coeffs) i))
      (seq 0 3) 1 in
  Math_sqrt (Math_max [n2; 1]).

(** Fallback: constant [nDefault] for unknown materials. *)
Definition refractiveIndexAtWavelength
    (lambdaNm : number) (material : string) (nDefault : number) : number :=
  match getSellmeier material with
  | Some coeffs => nFromSellmeier lambdaNm coeffs
  | None => nDefault
  end.

(** ** Derivative estimator *)

(** Step in nm of the numerical derivatives. *)
Definition DEL : number := 0.5.

Definition d2n_dlambda2 (lambdaNm : number) (coeffs : SellmeierCoeffs) : number :=
  let n0 := nFromSellmeier lambdaNm coeffs in
  let nP := nFromSellmeier (lambdaNm + DEL) coeffs in
  let nM := nFromSellmeier (lambdaNm - DEL) coeffs in
  (nP - 2 * n0 + nM) / (DEL * DEL).

Definition d3n_dlambda3 (lambdaNm : number) (coeffs : SellmeierCoeffs) : number :=
  let n2 := d2n_dlambda2 (lambdaNm + DEL) coeffs in
  let n1 := d2n_dlambda2 (lambdaNm - DEL) coeffs in
  (n2 - n1) / (2 * DEL).

Definition C_LIGHT_MS : number := 2.99792458e8.

(** ** Pulse broadening predictor *)

Definition predictedExitPulseWidthFs
    (tauInFs gddTotalFs2 todTotalFs3 : number) : number :=
  let a := 4 * Math_LN2 in
  let tau2 := tauInFs * tauInFs in
  let gddTerm := (a * a * gddTotalFs2 * gddTotalFs2) / tau2 in
  let todTerm := (a * a * a * todTotalFs3 * todTotalFs3) / (tau2 * tau2) in
  Math_sqrt (Math_max [0; tau2 + gddTerm + todTerm]).

(** ** Stack elements and results *)

Record SurfaceForDispersion : Type :=
  { thickness : number;
    material : string;
    type : string;
    refractiveIndex : number }.

Module DispersionResult.
Record t : Type :=
  { gddFs2 : number;
    todFs3 : number;
    predictedExitPulseWidthFs : number }.
End DispersionResult.

(** ** Dispersion calculator and stack aggregator

    [Math.pow] is implementation-approximated in ECMAScript: its result is
    not fixed bit for bit, so the calculator is stated for an arbitrary
    [Math_pow]. *)

Section Engine.

Variable Math_pow : number -> number -> number.

(** GDD in fs^2 for path length [L_mm] (mm). *)
Definition gddFs2 (lambdaNm d2n_perNm2 L_mm : number) : number :=
  let lam_m := lambdaNm * 1e-9 in
  let d2n_perM2 := d2n_perNm2 * 1e18 in
  let c := C_LIGHT_MS in
  let L := L_mm * 1e-3 in
  let gdd_s2 :=
    (L * Math_pow lam_m 3 * d2n_perM2) / (2 * Math_PI * Math_PI * c * c) in
  gdd_s2 * 1e30.

(** TOD in fs^3 for path length [L_mm] (mm). *)
Definition todFs3 (lambdaNm d2n_perNm2 d3n_perNm3 L_mm : number) : number :=
  let lam_m := lambdaNm * 1e-9 in
  let d2n_perM2 := d2n_perNm2 * 1e18 in
  let d3n_perM3 := d3n_perNm3 * 1e27 in
  let c := C_LIGHT_MS in
  let L := L_mm * 1e-3 in
  let term := lam_m * d3n_perM3 - 2 * d2n_perM2 in
  let tod_s3 :=
    (L * Math_pow lam_m 4 * term)
    / (4 * Math_pow Math_PI 3 * Math_pow c 3) in
  tod_s3 * 1e45.

(** One iteration of the loop of [computeDispersion] on the running
    totals [(gddTotal, todTotal)]; [continue] leaves them unchanged. *)
Definition computeDispersion_step
    (lambdaNm : number) (totals : number * number) (s : SurfaceForDispersion)
    : number * number :=
  let '(gddTotal, todTotal) := totals in
  if String.eqb (type s) "Air" || (refractiveIndex s <=? 1.01) then totals
  else
    match getSellmeier (material s) with
    | None => totals
    | Some coeffs =>
        let L := thickness s in
        let d2n := d2n_dlambda2 lambdaNm coeffs in
        let d3n := d3n_dlambda3 lambdaNm coeffs in
        (gddTotal + gddFs2 lambdaNm d2n L,
         todTotal + todFs3 lambdaNm d2n d3n L)
    end.

Definition computeDispersion
    (surfaces : list SurfaceForDispersion) (lambdaNm pulseWidthFs : number)
    : DispersionResult.t :=
  let '(gddTotal, todTotal) :=
    fold_left (computeDispersion_step lambdaNm) surfaces (0, 0) in
  let predExit := predictedExitPulseWidthFs pulseWidthFs gddTotal todTotal in
  {| DispersionResult.gddFs2 := gddTotal;
     DispersionResult.todFs3 := todTotal;
     DispersionResult.predictedExitPulseWidthFs := predExit |}.

End Engine.

(** A [Math.pow] for running the engine: repeated multiplication for the
    exponents 3 and 4, the only ones the engine uses. *)
Definition pow_by_multiplication (base exponent : number) : number :=
  if exponent =? 3 then base * base * base
  else if exponent =? 4 then base * base * base * base
  else nan.

(** ** Statements of the specification, in its own words *)

(** The symmetric three-point stencil for a second derivative and the
    symmetric two-point stencil for a first derivative, with step [h]. *)
Definition three_point_second (f : number -> number) (h x : number) : number :=
  (f (x + h) - 2 * f x + f (x - h)) / (h * h).

Definition two_point_first (f : number -> number) (h x : number) : number :=
  (f (x + h) - f (x - h)) / (2 * h).

(** The Sellmeier sum as the loop accumulates it. *)
Definition sellmeier_n2 (lam : number) (coeffs : SellmeierCoeffs) : number :=
  let lam2 := lam * lam in
  1 + (at3 (B coeffs) 0 * lam2) / (lam2 - at3 (C coeffs) 0)
    + (at3 (B coeffs) 1 * lam2) / (lam2 - at3 (C coeffs) 1)
    + (at3 (B coeffs) 2 * lam2) / (lam2 - at3 (C coeffs) 2).

(** ** Sample stacks *)

Local Open Scope string_scope.

Definition silica6 : SurfaceForDispersion :=
  {| thickness := 6; material := "Fused Silica"; type := "Glass";
     refractiveIndex := 1.458 |}.

Definition air_gap : SurfaceForDispersion :=
  {| thickness := 10; material := "N-BK7"; type := "Air";
     refractiveIndex := 1.5168 |}.

Definition low_index : SurfaceForDispersion :=
  {| thickness := 10; material := "N-BK7"; type := "Glass";
     refractiveIndex := 1.01 |}.

Definition unobtainium : SurfaceForDispersion :=
  {| thickness := 3; material := "unobtainium"; type := "dispersive";
     refractiveIndex := 1.7 |}.

Local Close Scope string_scope.

(** ** Ranges without overflow or underflow *)

(** A magnitude in [[2^-1020, 2^1023)]: a normal number whose double and
    whose quarter are normal numbers too. *)
Definition in_range (x : number) : bool :=
  (0x1p-1020 <=? abs x) && (abs x <? 0x1p1023).

Section Ranges.

Variable Math_pow : number -> number -> number.

(** No step of [gddFs2] overflows or underflows: the path length and
    every intermediate value have a magnitude in [[2^-1020, 2^1023)]. *)
Definition gddFs2_in_range (lambdaNm d2n_perNm2 L_mm : number) : bool :=
  let lam_m := lambdaNm * 1e-9 in
  let d2n_perM2 := d2n_perNm2 * 1e18 in
  let c := C_LIGHT_MS in
  let L := L_mm * 1e-3 in
  let gdd_s2 :=
    (L * Math_pow lam_m 3 * d2n_perM2) / (2 * Math_PI * Math_PI * c * c) in
  in_range L_mm && in_range L && in_range (L * Math_pow lam_m 3)
  && in_range (L * Math_pow lam_m 3 * d2n_perM2)
  && in_range gdd_s2 && in_range (gdd_s2 * 1e30).

End Ranges.

(** ** Material names and nominal indices

    The material table of the System Editor: a name or a number typed in
    the Material/Index column becomes a nominal index, a display string
    and a type tag. *)

Local Open Scope string_scope.

(** Material name to refractive index at the d-line, 587.6 nm. *)
Definition MATERIAL_INDEX : list (string * number) :=
  [ ("air", 1.0); ("vacuum", 1.0);
    ("n-bk7", 1.5168); ("bk7", 1.5168); ("nbk7", 1.5168);
    ("n-sf11", 1.78472); ("sf11", 1.78472);
    ("fused silica", 1.458); ("fused-silica", 1.458); ("silica", 1.458);
    ("sapphire", 1.77);
    ("sf5", 1.6727); ("n-sf5", 1.6727);
    ("sf10", 1.7283); ("n-sf10", 1.7283);
    ("baf10", 1.67); ("n-baf10", 1.67);
    ("lak9", 1.691); ("n-lak9", 1.691) ].

(** Canonical display names for known materials. *)
Definition MATERIAL_DISPLAY : list (string * string) :=
  [ ("1", "Air"); ("1.0", "Air");
    ("1.5168", "N-BK7"); ("1.78472", "N-SF11");
    ("1.458", "Fused Silica"); ("1.77", "Sapphire");
    ("1.6727", "N-SF5"); ("1.7283", "N-SF10");
    ("1.67", "N-BAF10"); ("1.691", "N-LAK9") ].

(** Reading [table[key]] on an object literal goes through
    [Object.prototype]: a key the literal does not hold may still name an
    inherited property, whose value is a function or an object. *)
Definition Object_prototype_names : list string :=
  [ "constructor"; "hasOwnProperty"; "isPrototypeOf";
    "propertyIsEnumerable"; "toLocaleString"; "toString"; "valueOf";
    "__proto__"; "__defineGetter__"; "__defineSetter__";
    "__lookupGetter__"; "__lookupSetter__" ].

Inductive property (V : Type) : Type :=
| Own (v : V)
| Inherited
| Undefined.

Arguments Own {V} v.
Arguments Inherited {V}.
Arguments Undefined {V}.

Definition get {V : Type} (key : string) (table : list (string * V))
  : property V :=
  match lookup key table with
  | Some v => Own v
  | None =>
      if existsb (String.eqb key) Object_prototype_names then Inherited
      else Undefined
  end.

(** The [refractiveIndex] field of a parse result: a number, or the
    inherited function or object when the input names one. *)
Inductive parsed_index : Type :=
| ParsedNumber (n : number)
| ParsedObject.

Module MaterialParseResult.
Record t : Type :=
  { refractiveIndex : parsed_index;
    material : string;
    type : string }.
End MaterialParseResult.

Module MaterialPreset.
Record t : Type := { value : string; label : string; n : number }.
End MaterialPreset.

(** Presets for the Material dropdown. *)
Definition MATERIAL_PRESETS : list MaterialPreset.t :=
  [ {| MaterialPreset.value := "air"; MaterialPreset.label := "Air (1.0)";
       MaterialPreset.n := 1.0 |};
    {| MaterialPreset.value := "bk7"; MaterialPreset.label := "BK7 (1.517)";
       MaterialPreset.n := 1.5168 |};
    {| MaterialPreset.value := "sf11"; MaterialPreset.label := "SF11 (1.785)";
       MaterialPreset.n := 1.78472 |} ].

Definition PRESET_TOLERANCE : number := 0.0005.

(** Preset value that matches [n], or "custom". *)
Definition getPresetForIndex (n : number) : string :=
  match
    find (fun p => (abs (n - MaterialPreset.n p) <? PRESET_TOLERANCE)%float)
         MATERIAL_PRESETS
  with
  | Some p => MaterialPreset.value p
  | None => "custom"
  end.

(** Refractive index for a preset value. *)
Definition getIndexForPreset (value : string) : number :=
  match find (fun x => String.eqb (MaterialPreset.value x) value)
             MATERIAL_PRESETS with
  | Some p => MaterialPreset.n p
  | None => 1.5
  end.

Section Materials.

(** [parseFloat], [String(n)] and [n.toFixed(d)] are left open: the
    properties below hold for every implementation of them.  [String(n)]
    is made of digits, signs, a point and letters of [NaN], [Infinity] and
    the exponent mark, so it names no inherited property, and the display
    table is read by its own keys. *)
Variable parseFloat : string -> number.
Variable Number_toString : number -> string.
Variable toFixed : number -> nat -> string.

Definition air_result : MaterialParseResult.t :=
  {| MaterialParseResult.refractiveIndex := ParsedNumber 1;
     MaterialParseResult.material := "Air";
     MaterialParseResult.type := "Air" |}.

(** Parse Material/Index input: a number (n) or a material name. *)
Definition parseMaterialIndex (input : string) : MaterialParseResult.t :=
  let trimmed := trim input in
  match trimmed with
  | EmptyString => air_result
  | _ =>
      let lower := toLowerCase trimmed in
      match get lower MATERIAL_INDEX with
      | Own n =>
          let display := if (n =? 1)%float then "Air" else trimmed in
          {| MaterialParseResult.refractiveIndex := ParsedNumber n;
             MaterialParseResult.material := display;
             MaterialParseResult.type :=
               if (1.01 <? n)%float then "Glass" else "Air" |}
      | Inherited =>
          (* an object is neither [=== 1] nor [> 1.01] *)
          {| MaterialParseResult.refractiveIndex := ParsedObject;
             MaterialParseResult.material := trimmed;
             MaterialParseResult.type := "Air" |}
      | Undefined =>
          let num := parseFloat trimmed in
          if (negb (is_nan num) && (1 <=? num) && (num <? 3))%float then
            let display :=
              match lookup (Number_toString num) MATERIAL_DISPLAY with
              | Some d => d
              | None => "n=" ++ toFixed num 4
              end in
            {| MaterialParseResult.refractiveIndex := ParsedNumber num;
               MaterialParseResult.material := display;
               MaterialParseResult.type :=
                 if (1.01 <? num)%float then "Glass" else "Air" |}
          else air_result
      end
  end.

(** Format [refractiveIndex] for display in the Material/Index field. *)
Definition formatMaterialIndex (material : string) (refractiveIndex : number)
  : string :=
  if (refractiveIndex <=? 1.001)%float then "Air"
  else
    let key := Number_toString refractiveIndex in
    match lookup key MATERIAL_DISPLAY with
    | Some d => d
    | None =>
        if negb (String.eqb material "")
           && negb (String.eqb material ("n=" ++ Number_toString refractiveIndex))
        then material
        else "n=" ++ toFixed refractiveIndex 4
    end.

End Materials.

Local Close Scope string_scope.

(** A string made of white space only. *)
Fixpoint all_white_space (s : string) : bool :=
  match s with
  | EmptyString => true
  | String c r => is_white_space c && all_white_space r
  end.

(** ** Ranges of the TOD formula *)

Section RangesTod.

Variable Math_pow : number -> number -> number.

(** No step of [todFs3] overflows or underflows. *)
Definition todFs3_in_range (lambdaNm d2n_perNm2 d3n_perNm3 L_mm : number) : bool :=
  let lam_m := lambdaNm * 1e-9 in
  let d2n_perM2 := d2n_perNm2 * 1e18 in
  let d3n_perM3 := d3n_perNm3 * 1e27 in
  let c := C_LIGHT_MS in
  let L := L_mm * 1e-3 in
  let term := lam_m * d3n_perM3 - 2 * d2n_perM2 in
  let tod_s3 :=
    (L * Math_pow lam_m 4 * term)
    / (4 * Math_pow Math_PI 3 * Math_pow c 3) in
  in_range L_mm && in_range L && in_range (L * Math_pow lam_m 4)
  && in_range (L * Math_pow lam_m 4 * term)
  && in_range tod_s3 && in_range (tod_s3 * 1e45).

End RangesTod.

(** ** Notions used to reason on binary64 rounding *)

Local Open Scope Z_scope.

(** After [k >= 1] shifts of an exact mantissa [M] the record holds the
    quotient by [2^k], the bit below it, and whether anything is left. *)
Definition shr_inv (M : Z) (k : Z) (mrs : shr_record) : Prop :=
  0 <= shr_m mrs /\
  exists rest, 0 <= rest < 2 ^ (k - 1)
    /\ M = shr_m mrs * 2 ^ k + (if shr_r mrs then 2 ^ (k - 1) else 0) + rest
    /\ shr_s mrs = negb (rest =? 0).

(** The sign of a rounded non-negative mantissa is the sign given. *)
Definition SFhas_sign (s : bool) (x : spec_float) : Prop :=
  match x with
  | S754_zero s' | S754_infinity s' | S754_finite s' _ _ => s' = s
  | S754_nan => False
  end.

(** Non-negative values: [+0], [-0], positive finite numbers, [+Infinity]. *)
Definition SFnonneg (x : spec_float) : Prop :=
  match x with
  | S754_zero _ | S754_infinity false | S754_finite false _ _ => True
  | _ => False
  end.

(** The result of rounding a mantissa [M] of 53 digits with location [l]
    at an exponent in range. *)
Definition rounded53 (s : bool) (M E : Z) (l : location) : spec_float :=
  let M2 := round_nearest_even M l in
  if M2 <? 2 ^ 53
  then if E <=? 971 then S754_finite s (Z.to_pos M2) E else S754_infinity s
  else if E + 1 <=? 971 then S754_finite s (2 ^ 52)%positive (E + 1)
       else S754_infinity s.

(** The square root of a normal number: the integer square root of the
    mantissa shifted to 105 or 106 digits. *)
Definition sqrt_shift (e : Z) : Z := e mod 2 + 52.

Definition sqrt_loc (m' q : Z) : location :=
  let r := m' - q * q in
  if r =? 0 then loc_Exact else loc_Inexact (if r <=? q then Lt else Gt).

(** The exponent chosen by the division core. *)
Definition div_exp (m1 : positive) (e1 : Z) (m2 : positive) (e2 : Z) : Z :=
  Z.min (Z.max (Zdigits2 (Zpos m1) + e1 - (Zdigits2 (Zpos m2) + e2) - 53) (-1074))
        (e1 - e2).

Local Close Scope Z_scope.

(** * Binary64 arithmetic

    Facts on [SpecFloat], the executable specification of the binary64
    operations, at [prec = 53] and [emax = 1024]. *)

Local Open Scope Z_scope.

(** Linear arithmetic with quotients and remainders by constants. *)
Ltac lia_div := Z.div_mod_to_equations; lia.

(** ** Digits *)

Lemma fexp64 e : fexp prec emax e = Z.max (e - 53) (-1074).
Proof. reflexivity. Qed.

Lemma digits2_pos_size p : digits2_pos p = Pos.size p.
Proof. induction p; simpl; congruence. Qed.

Lemma Zdigits2_pos_bounds p :
  2 ^ (Zpos (digits2_pos p) - 1) <= Zpos p < 2 ^ Zpos (digits2_pos p).
Proof.
  rewrite digits2_pos_size. split.
  - pose proof (Pos.size_le p) as H.
    assert (Hp : (2 ^ Zpos (Pos.size p) <= 2 * Zpos p)).
    { change (2 * Zpos p) with (Zpos (p~0)). rewrite <- Pos2Z.inj_pow. exact H. }
    replace (Zpos (Pos.size p)) with (Z.succ (Zpos (Pos.size p) - 1)) in Hp by lia.
    rewrite Z.pow_succ_r in Hp by lia. lia.
  - pose proof (Pos.size_gt p) as H.
    rewrite <- Pos2Z.inj_pow. exact H.
Qed.

Lemma Zdigits2_nonneg M : 0 <= Zdigits2 M.
Proof. destruct M; simpl; lia. Qed.

Lemma Zdigits2_bounds M :
  0 < M -> 2 ^ (Zdigits2 M - 1) <= M < 2 ^ Zdigits2 M.
Proof.
  destruct M as [|p|p]; try lia. intros _. apply Zdigits2_pos_bounds.
Qed.

Lemma Zdigits2_unique M d :
  2 ^ (d - 1) <= M < 2 ^ d -> 0 < d -> Zdigits2 M = d.
Proof.
  intros [Hlo Hhi] Hd.
  assert (0 < M) by (pose proof (Z.pow_pos_nonneg 2 (d - 1)); lia).
  pose proof (Zdigits2_bounds M H) as [Hl Hh].
  pose proof (Zdigits2_nonneg M).
  destruct (Z.lt_trichotomy (Zdigits2 M) d) as [Hlt | [Heq | Hgt]]; auto.
  - assert (2 ^ Zdigits2 M <= 2 ^ (d - 1)) by (apply Z.pow_le_mono_r; lia). lia.
  - assert (2 ^ d <= 2 ^ (Zdigits2 M - 1)) by (apply Z.pow_le_mono_r; lia). lia.
Qed.

Lemma Zdigits2_le M d : 0 <= M < 2 ^ d -> 0 <= d -> Zdigits2 M <= d.
Proof.
  intros [Hlo Hhi] Hd.
  destruct (Z.eq_dec M 0) as [-> | Hne]; [simpl; lia |].
  pose proof (Zdigits2_bounds M ltac:(lia)) as [Hl Hh].
  destruct (Z_lt_le_dec d (Zdigits2 M)) as [Hlt | Hle]; auto.
  assert (2 ^ d <= 2 ^ (Zdigits2 M - 1)) by (apply Z.pow_le_mono_r; lia). lia.
Qed.

Lemma Zdigits2_ge M d : 2 ^ (d - 1) <= M -> 0 < d -> d <= Zdigits2 M.
Proof.
  intros Hlo Hd.
  assert (0 < M) by (pose proof (Z.pow_pos_nonneg 2 (d - 1)); lia).
  pose proof (Zdigits2_bounds M H) as [Hl Hh].
  destruct (Z_lt_le_dec (Zdigits2 M) d) as [Hlt | Hle]; auto.
  pose proof (Zdigits2_nonneg M).
  assert (2 ^ Zdigits2 M <= 2 ^ (d - 1)) by (apply Z.pow_le_mono_r; lia).
  lia.
Qed.

(** ** Shifting right *)

(** Shifting right: [iter_pos shr_1] as an iteration over [nat]. *)
Lemma iter_pos_nat {A} (f : A -> A) p x :
  iter_pos f p x = Nat.iter (Pos.to_nat p) f x.
Proof.
  revert x. induction p as [p IH | p IH |]; intros x; cbn [iter_pos].
  - rewrite !IH, Pos2Nat.inj_xI.
    replace (S (2 * Pos.to_nat p))%nat
      with (Pos.to_nat p + (Pos.to_nat p + 1))%nat by lia.
    rewrite !Nat.iter_add. reflexivity.
  - rewrite !IH, Pos2Nat.inj_xO.
    replace (2 * Pos.to_nat p)%nat with (Pos.to_nat p + Pos.to_nat p)%nat by lia.
    rewrite Nat.iter_add. reflexivity.
  - reflexivity.
Qed.

Lemma shr_1_m mrs : 0 <= shr_m mrs -> shr_m (shr_1 mrs) = shr_m mrs / 2.
Proof.
  destruct mrs as [m r s]. cbn [shr_m]. intros Hm.
  destruct m as [|[p|p|]|p]; cbn [shr_1 shr_m]; try lia.
  - reflexivity.
  - apply Z.div_unique with (r := 1); lia.
  - apply Z.div_unique with (r := 0); lia.
  - reflexivity.
Qed.

Lemma shr_1_r mrs : 0 <= shr_m mrs -> shr_r (shr_1 mrs) = Z.odd (shr_m mrs).
Proof.
  destruct mrs as [m r s]. simpl. intros Hm.
  destruct m as [|[p|p|]|p]; simpl; try lia; reflexivity.
Qed.

Lemma shr_1_s mrs : shr_s (shr_1 mrs) = shr_r mrs || shr_s mrs.
Proof.
  destruct mrs as [m r s]. simpl.
  destruct m as [|[p|p|]|[p|p|]]; reflexivity.
Qed.

Lemma shr_inv_start M :
  0 <= M -> shr_inv M 1 (shr_1 (Build_shr_record M false false)).
Proof.
  intros HM. split.
  - rewrite shr_1_m by (simpl; lia). simpl. apply Z.div_pos; lia.
  - exists 0. rewrite shr_1_m, shr_1_r, shr_1_s by (simpl; lia). simpl shr_m.
    simpl shr_r. simpl shr_s. change (2 ^ (1 - 1)) with 1. change (2 ^ 1) with 2.
    repeat split; try lia.
    pose proof (Z.div_mod M 2 ltac:(lia)) as Hdm.
    rewrite Zmod_odd in Hdm. destruct (Z.odd M); lia.
Qed.

Lemma shr_inv_step M k mrs :
  1 <= k -> shr_inv M k mrs -> shr_inv M (k + 1) (shr_1 mrs).
Proof.
  intros Hk [Hm (rest & Hrest & HM & Hs)]. split.
  - rewrite shr_1_m by lia. apply Z.div_pos; lia.
  - exists ((if shr_r mrs then 2 ^ (k - 1) else 0) + rest).
    rewrite shr_1_m, shr_1_r, shr_1_s by lia.
    replace (k + 1 - 1) with k by lia.
    assert (Hpow : 2 ^ k = 2 * 2 ^ (k - 1)).
    { replace k with (Z.succ (k - 1)) at 1 by lia. apply Z.pow_succ_r. lia. }
    assert (Hpow' : 2 ^ (k + 1) = 2 * 2 ^ k) by (apply Z.pow_succ_r; lia).
    pose proof (Z.div_mod (shr_m mrs) 2 ltac:(lia)) as Hdm.
    rewrite Zmod_odd in Hdm.
    repeat split.
    + destruct (shr_r mrs); lia.
    + destruct (shr_r mrs); lia.
    + rewrite HM at 1. rewrite Hpow'.
      destruct (Z.odd (shr_m mrs)); nia.
    + rewrite Hs. pose proof (Z.pow_pos_nonneg 2 (k - 1)).
      destruct (shr_r mrs); cbn [orb].
      * symmetry. apply negb_true_iff, Z.eqb_neq. lia.
      * reflexivity.
Qed.

Lemma shr_inv_iter M n :
  0 <= M ->
  shr_inv M (Z.of_nat (S n)) (Nat.iter (S n) shr_1 (Build_shr_record M false false)).
Proof.
  intros HM. induction n as [|n IH].
  - apply shr_inv_start; assumption.
  - replace (Z.of_nat (S (S n))) with (Z.of_nat (S n) + 1) by lia.
    change (Nat.iter (S (S n)) shr_1 ?x) with (shr_1 (Nat.iter (S n) shr_1 x)).
    apply shr_inv_step; [lia | exact IH].
Qed.

Lemma shr_inv_pos M p :
  0 <= M ->
  shr_inv M (Zpos p) (iter_pos shr_1 p (Build_shr_record M false false)).
Proof.
  intros HM. rewrite iter_pos_nat.
  destruct (Pos2Nat.is_succ p) as [n Hn]. rewrite Hn.
  replace (Zpos p) with (Z.of_nat (S n)) by lia.
  apply shr_inv_iter; assumption.
Qed.

Lemma shr_m_iter k mrs :
  0 <= shr_m mrs ->
  shr_m (Nat.iter k shr_1 mrs) = shr_m mrs / 2 ^ Z.of_nat k.
Proof.
  intros Hm. induction k as [|k IH].
  - simpl. now rewrite Z.div_1_r.
  - change (Nat.iter (S k) shr_1 mrs) with (shr_1 (Nat.iter k shr_1 mrs)).
    assert (0 <= shr_m (Nat.iter k shr_1 mrs)).
    { rewrite IH. apply Z.div_pos; [lia | apply Z.pow_pos_nonneg; lia]. }
    rewrite shr_1_m, IH by assumption.
    rewrite Nat2Z.inj_succ, Z.pow_succ_r by lia.
    rewrite Z.div_div by (try apply Z.pow_pos_nonneg; lia).
    f_equal. lia.
Qed.

Lemma shr_snd mrs e n : snd (shr mrs e n) = e + Z.max n 0.
Proof. destruct n; simpl; lia. Qed.

Lemma shr_fst_m mrs e n :
  0 <= shr_m mrs ->
  shr_m (fst (shr mrs e n)) = shr_m mrs / 2 ^ Z.max n 0.
Proof.
  intros Hm. destruct n as [|p|p]; cbn [shr fst].
  - simpl. now rewrite Z.div_1_r.
  - rewrite iter_pos_nat, shr_m_iter by assumption.
    rewrite positive_nat_Z. reflexivity.
  - simpl. now rewrite Z.div_1_r.
Qed.

Lemma shr_record_of_loc_m M l : shr_m (shr_record_of_loc M l) = M.
Proof. destruct l as [|[]]; reflexivity. Qed.

Lemma loc_of_shr_record_of_loc M l :
  loc_of_shr_record (shr_record_of_loc M l) = l.
Proof. destruct l as [|[]]; reflexivity. Qed.

(** ** Rounding *)

Lemma round_nearest_even_bounds M l :
  M <= round_nearest_even M l <= M + 1.
Proof.
  unfold round_nearest_even. destruct l as [|[]]; try lia.
  destruct (Z.even M); lia.
Qed.

(** [binary_round_aux] without its pattern-matching lets. *)
Lemma binary_round_aux_eq s M E l :
  binary_round_aux prec emax s M E l =
  let p1 := shr_fexp prec emax M E l in
  let M2 := round_nearest_even (shr_m (fst p1)) (loc_of_shr_record (fst p1)) in
  let p2 := shr_fexp prec emax M2 (snd p1) loc_Exact in
  match shr_m (fst p2) with
  | Z0 => S754_zero s
  | Zpos m =>
      if snd p2 <=? emax - prec then S754_finite s m (snd p2)
      else S754_infinity s
  | Zneg _ => S754_nan
  end.
Proof.
  unfold binary_round_aux.
  destruct (shr_fexp prec emax M E l) as [mrs1 e1]. cbn [fst snd].
  destruct (shr_fexp prec emax _ e1 loc_Exact) as [mrs2 e2]. reflexivity.
Qed.

Lemma shr_fexp_m M E l :
  0 <= M ->
  shr_m (fst (shr_fexp prec emax M E l))
  = M / 2 ^ Z.max (fexp prec emax (Zdigits2 M + E) - E) 0.
Proof.
  intros HM. unfold shr_fexp.
  rewrite shr_fst_m; rewrite shr_record_of_loc_m; auto.
Qed.

Lemma shr_fexp_e M E l :
  snd (shr_fexp prec emax M E l)
  = E + Z.max (fexp prec emax (Zdigits2 M + E) - E) 0.
Proof. unfold shr_fexp. apply shr_snd. Qed.

Lemma binary_round_aux_sign s M E l :
  0 <= M -> SFhas_sign s (binary_round_aux prec emax s M E l).
Proof.
  intros HM. rewrite binary_round_aux_eq. cbv zeta.
  set (p1 := shr_fexp prec emax M E l).
  set (M2 := round_nearest_even _ _).
  assert (H1 : 0 <= shr_m (fst p1)).
  { unfold p1. rewrite shr_fexp_m by assumption.
    apply Z.div_pos; [lia | apply Z.pow_pos_nonneg; lia]. }
  assert (H2 : 0 <= M2).
  { unfold M2.
    pose proof (round_nearest_even_bounds (shr_m (fst p1))
                  (loc_of_shr_record (fst p1))).
    lia. }
  assert (H3 : 0 <= shr_m (fst (shr_fexp prec emax M2 (snd p1) loc_Exact))).
  { rewrite shr_fexp_m by assumption.
    apply Z.div_pos; [lia | apply Z.pow_pos_nonneg; lia]. }
  destruct (shr_m (fst (shr_fexp prec emax M2 (snd p1) loc_Exact))); try lia.
  - reflexivity.
  - destruct (_ <=? _); reflexivity.
Qed.

(** ** Comparisons and signs *)

Lemma SFcompare_refl x : x <> S754_nan -> SFcompare x x = Some Eq.
Proof.
  destruct x as [[]|[]| |[] m e]; intros H; try reflexivity; try congruence;
    cbn [SFcompare]; rewrite Z.compare_refl, Pos.compare_cont_refl; reflexivity.
Qed.

Lemma SFnonneg_leb x : SFnonneg x -> SFleb (S754_zero false) x = true.
Proof.
  destruct x as [[]|[]| |[] m e]; cbn; intros H; try reflexivity; destruct H.
Qed.

Lemma SFhas_sign_nonneg x : SFhas_sign false x -> SFnonneg x.
Proof.
  destruct x as [[]|[]| |[] m e]; cbn; intros H; auto; discriminate.
Qed.

Lemma SFltb_zero_pos x :
  SFltb (S754_zero false) x = true ->
  x = S754_infinity false \/ exists m e, x = S754_finite false m e.
Proof.
  destruct x as [[]|[]| |[] m e]; cbn; intros H; try discriminate; eauto.
Qed.

Lemma SFsqrt_finite_eq m e :
  SFsqrt prec emax (S754_finite false m e) =
  let c := SFsqrt_core_binary prec emax (Zpos m) e in
  binary_round_aux prec emax false (fst (fst c)) (snd (fst c)) (snd c).
Proof.
  unfold SFsqrt.
  destruct (SFsqrt_core_binary prec emax (Zpos m) e) as [[mz ez] lz].
  reflexivity.
Qed.

Lemma SFsqrt_core_binary_m M e :
  (0 <= fst (fst (SFsqrt_core_binary prec emax M e)))%Z.
Proof.
  unfold SFsqrt_core_binary.
  match goal with |- context [Z.sqrtrem ?a] =>
    pose proof (Z.sqrtrem_sqrt a) as Hs; pose proof (Z.sqrt_nonneg a) as Hn;
    destruct (Z.sqrtrem a) as [q r] end.
  cbn [fst] in *. subst q. exact Hn.
Qed.

Lemma SFsqrt_nonneg x :
  SFltb (S754_zero false) x = true -> SFnonneg (SFsqrt prec emax x).
Proof.
  intros H. apply SFltb_zero_pos in H. destruct H as [-> | (m & e & ->)].
  - exact I.
  - rewrite SFsqrt_finite_eq. cbv zeta.
    apply SFhas_sign_nonneg, binary_round_aux_sign, SFsqrt_core_binary_m.
Qed.

(** Signs of products, quotients and sums. *)
Lemma SFmul_finite_sign sx mx ex sy my ey :
  SFhas_sign (xorb sx sy)
    (SFmul prec emax (S754_finite sx mx ex) (S754_finite sy my ey)).
Proof. cbn [SFmul]. apply binary_round_aux_sign. lia. Qed.

(** [(c * y) * y] is non-negative for a positive finite constant [c]. *)
Lemma SFmul_square_nonneg mc ec y :
  y <> S754_nan ->
  SFnonneg (SFmul prec emax (SFmul prec emax (S754_finite false mc ec) y) y).
Proof.
  intros Hy. destruct y as [sy | sy | | sy my ey]; try congruence.
  - cbn. exact I.
  - cbn. destruct sy; exact I.
  - pose proof (SFmul_finite_sign false mc ec sy my ey) as Hu.
    destruct (SFmul prec emax (S754_finite false mc ec) (S754_finite sy my ey))
      as [su | su | | su mu eu]; cbn [SFhas_sign] in Hu; try contradiction; subst su.
    + cbn. exact I.
    + cbn. destruct sy; exact I.
    + apply SFhas_sign_nonneg.
      pose proof (SFmul_finite_sign (xorb false sy) mu eu sy my ey) as H.
      destruct sy; exact H.
Qed.

Lemma SFdiv_core_binary_m m1 e1 m2 e2 :
  (0 <= fst (fst (SFdiv_core_binary prec emax (Zpos m1) e1 (Zpos m2) e2)))%Z.
Proof.
  unfold SFdiv_core_binary.
  set (s := (e1 - e2 - _)%Z).
  set (m' := match s with
             | Zpos _ => Z.shiftl (Zpos m1) s
             | Z0 => Zpos m1
             | Zneg _ => Z0
             end).
  assert (Hm' : (0 <= m')%Z).
  { unfold m'. destruct s; try lia. apply Z.shiftl_nonneg. lia. }
  pose proof (Z_div_mod m' (Zpos m2) ltac:(lia)) as Hdm.
  unfold Z.div_eucl in *.
  fold (Z.div_eucl m' (Zpos m2)) in *.
  destruct (Z.div_eucl m' (Zpos m2)) as [q r]. cbn [fst]. nia.
Qed.

Lemma SFdiv_nonneg x md ed :
  SFnonneg x -> SFnonneg (SFdiv prec emax x (S754_finite false md ed)).
Proof.
  destruct x as [sx | [] | | [] mx ex]; cbn [SFnonneg]; intros H; try contradiction.
  - cbn. exact I.
  - cbn. exact I.
  - cbn [SFdiv].
    pose proof (SFdiv_core_binary_m mx ex md ed) as Hq.
    destruct (SFdiv_core_binary prec emax (Zpos mx) ex (Zpos md) ed) as [[mz ez] lz].
    cbn [fst] in Hq. apply SFhas_sign_nonneg.
    apply binary_round_aux_sign. exact Hq.
Qed.

Lemma binary_round_sign s m e : SFhas_sign s (binary_round prec emax s m e).
Proof.
  unfold binary_round.
  destruct (shl_align m e _) as [mz ez].
  apply binary_round_aux_sign. lia.
Qed.

Lemma SFadd_nonneg x y : SFnonneg x -> SFnonneg y -> SFnonneg (SFadd prec emax x y).
Proof.
  destruct x as [sx | [] | | [] mx ex]; cbn [SFnonneg]; try contradiction;
    destruct y as [sy | [] | | [] my ey]; cbn [SFnonneg]; try contradiction;
    intros _ _; try exact I.
  - cbn. destruct sx, sy; exact I.
  - cbn [SFadd]. cbn [cond_Zopp]. cbn [Z.add binary_normalize].
    apply SFhas_sign_nonneg, binary_round_sign.
Qed.

Lemma SFnonneg_not_nan x : SFnonneg x -> x <> S754_nan.
Proof. destruct x; cbn; congruence. Qed.

Lemma SFltb_pos_finite x :
  SFltb (S754_zero false) x = true -> SFltb x (S754_infinity false) = true ->
  exists m e, x = S754_finite false m e.
Proof.
  intros H1 H2. apply SFltb_zero_pos in H1. destruct H1 as [-> | H]; auto.
  discriminate.
Qed.

(** The square of a float whose own square is positive and finite. *)
Lemma square_factor_finite x :
  (exists m e,
      SFmul prec emax (SFmul prec emax x x) (SFmul prec emax x x)
      = S754_finite false m e) ->
  exists m e, SFmul prec emax x x = S754_finite false m e.
Proof.
  intros (m & e & H).
  destruct x as [sx | sx | | sx mx ex]; try discriminate H.
  pose proof (SFmul_finite_sign sx mx ex sx mx ex) as Hs.
  destruct (SFmul prec emax (S754_finite sx mx ex) (S754_finite sx mx ex))
    as [su | su | | su mu eu]; try discriminate H.
  cbn in Hs. subst su. destruct sx; eauto.
Qed.

(** ** Normal numbers and their square roots *)

Lemma binary_round_aux_53 s M E l :
  2 ^ 52 <= M < 2 ^ 53 -> -1074 <= E ->
  binary_round_aux prec emax s M E l = rounded53 s M E l.
Proof.
  intros HM HE. rewrite binary_round_aux_eq. cbv zeta.
  assert (Hd : Zdigits2 M = 53) by (apply Zdigits2_unique; lia).
  assert (H1 : shr_fexp prec emax M E l = (shr_record_of_loc M l, E)).
  { unfold shr_fexp. rewrite Hd, fexp64.
    replace (Z.max (53 + E - 53) (-1074) - E) with 0 by lia. reflexivity. }
  rewrite H1. cbn [fst snd].
  rewrite shr_record_of_loc_m, loc_of_shr_record_of_loc.
  unfold rounded53. cbv zeta.
  pose proof (round_nearest_even_bounds M l) as HM2.
  set (M2 := round_nearest_even M l) in *.
  destruct (Z.ltb_spec M2 (2 ^ 53)) as [Hlt | Hge].
  - assert (Hd2 : Zdigits2 M2 = 53) by (apply Zdigits2_unique; lia).
    unfold shr_fexp. rewrite Hd2, fexp64.
    replace (Z.max (53 + E - 53) (-1074) - E) with 0 by lia.
    cbn [shr shr_record_of_loc fst snd shr_m].
    destruct M2 as [|p|p]; try lia. reflexivity.
  - assert (HM2' : M2 = 2 ^ 53) by lia. rewrite HM2'.
    unfold shr_fexp.
    replace (Zdigits2 (2 ^ 53)) with 54 by reflexivity. rewrite fexp64.
    replace (Z.max (54 + E - 53) (-1074) - E) with 1 by lia.
    reflexivity.
Qed.

Lemma SFsqrt_core_binary_53 m e :
  2 ^ 52 <= Zpos m < 2 ^ 53 -> -1074 <= e ->
  SFsqrt_core_binary prec emax (Zpos m) e =
  let m' := Zpos m * 2 ^ sqrt_shift e in
  (Z.sqrt m', e / 2 - 26, sqrt_loc m' (Z.sqrt m')).
Proof.
  intros Hm He. unfold SFsqrt_core_binary.
  assert (Hd : Zdigits2 (Zpos m) = 53) by (apply Zdigits2_unique; lia).
  rewrite Hd, fexp64, !Z.div2_div.
  assert (He' : Z.min (Z.max ((53 + e + 1) / 2 - 53) (-1074)) (e / 2) = e / 2 - 26)
    by lia_div.
  rewrite He'.
  assert (Hs : e - 2 * (e / 2 - 26) = sqrt_shift e)
    by (unfold sqrt_shift; lia_div).
  rewrite Hs.
  assert (Hs' : 52 <= sqrt_shift e <= 53)
    by (unfold sqrt_shift; lia_div).
  assert (Hm' : match sqrt_shift e with
                | Zpos _ => Z.shiftl (Zpos m) (sqrt_shift e)
                | Z0 => Zpos m
                | Zneg _ => 0
                end = Zpos m * 2 ^ sqrt_shift e).
  { destruct (sqrt_shift e) eqn:E; try lia.
    rewrite Z.shiftl_mul_pow2 by lia. reflexivity. }
  rewrite Hm'. cbv zeta.
  set (m' := Zpos m * 2 ^ sqrt_shift e).
  assert (0 <= m').
  { unfold m'. apply Z.mul_nonneg_nonneg; [lia | apply Z.pow_nonneg; lia]. }
  pose proof (Z.sqrtrem_spec m' H) as Hspec.
  pose proof (Z.sqrtrem_sqrt m') as Hsq.
  destruct (Z.sqrtrem m') as [q r]. cbn [fst] in Hsq. subst q.
  destruct Hspec as [Hspec Hr].
  unfold sqrt_loc. cbv zeta.
  replace (m' - Z.sqrt m' * Z.sqrt m') with r by lia. reflexivity.
Qed.

Lemma sqrt_mantissa_53 m s :
  2 ^ 52 <= m < 2 ^ 53 -> 52 <= s <= 53 ->
  2 ^ 52 <= Z.sqrt (m * 2 ^ s) < 2 ^ 53.
Proof.
  intros Hm Hs.
  assert (Hs' : s = 52 \/ s = 53) by lia.
  split.
  - change (2 ^ 52) with (Z.sqrt (2 ^ 52 * 2 ^ 52)) at 1.
    apply Z.sqrt_le_mono. destruct Hs' as [-> | ->]; lia.
  - apply Z.sqrt_lt_square; try lia.
    destruct Hs' as [-> | ->]; lia.
Qed.

Lemma valid_normal m e s :
  valid_binary (S754_finite s m e) = true -> (-1074 < e)%Z ->
  (2 ^ 52 <= Zpos m < 2 ^ 53)%Z /\ (e <= 971)%Z.
Proof.
  unfold SpecFloat.valid_binary, bounded, canonical_mantissa.
  rewrite andb_true_iff, Z.eqb_eq, Z.leb_le, fexp64.
  intros [Hc Hb] He.
  pose proof (Zdigits2_pos_bounds m) as Hd.
  assert (Hd53 : Zpos (digits2_pos m) = 53%Z) by lia.
  rewrite Hd53 in Hd. change (emax - prec)%Z with 971%Z in Hb. lia.
Qed.

Lemma SFleb_one_finite m e :
  (2 ^ 52 <= Zpos m)%Z -> (-52 <= e)%Z ->
  SFleb (S754_finite false (2 ^ 52) (-52)) (S754_finite false m e) = true.
Proof.
  intros Hm He. unfold SFleb. cbn [SFcompare].
  destruct (Z.compare_spec (-52) e) as [Heq | Hlt | Hgt]; try reflexivity; try lia.
  rewrite Pos.compare_cont_spec. cbn [Pos.switch_Eq].
  destruct (Pos.compare_spec (2 ^ 52)%positive m); try reflexivity. lia.
Qed.

Lemma SFsqrt_ge_1 x :
  valid_binary x = true -> x <> S754_nan ->
  SFltb x (S754_finite false (2 ^ 52) (-52)) = false ->
  SFleb (S754_finite false (2 ^ 52) (-52)) (SFsqrt prec emax x) = true.
Proof.
  intros Hv Hn Hlt.
  destruct x as [sx | [] | | [] m e]; try discriminate Hlt; try congruence.
  - reflexivity.
  - assert (He : (-52 <= e)%Z).
    { unfold SFltb in Hlt. cbn [SFcompare] in Hlt.
      destruct (Z.compare_spec e (-52)); try discriminate Hlt; lia. }
    destruct (valid_normal m e false Hv ltac:(lia)) as [Hm He2].
    rewrite SFsqrt_finite_eq, SFsqrt_core_binary_53 by lia.
    cbv zeta. cbn [fst snd].
    assert (Hs : (52 <= sqrt_shift e <= 53)%Z)
      by (unfold sqrt_shift; lia_div).
    pose proof (sqrt_mantissa_53 (Zpos m) (sqrt_shift e) Hm Hs) as Hq.
    assert (He' : (-52 <= e / 2 - 26)%Z) by lia_div.
    rewrite binary_round_aux_53 by lia.
    unfold rounded53. cbv zeta.
    set (X := (Zpos m * 2 ^ sqrt_shift e)%Z) in *.
    pose proof (round_nearest_even_bounds (Z.sqrt X) (sqrt_loc X (Z.sqrt X)))
      as HM2.
    set (M2 := round_nearest_even _ _) in *.
    destruct (M2 <? 2 ^ 53)%Z.
    + destruct (_ <=? 971)%Z; [| reflexivity].
      apply SFleb_one_finite; [rewrite Z2Pos.id |]; lia.
    + destruct (_ <=? 971)%Z; [| reflexivity].
      apply SFleb_one_finite; lia.
Qed.

(** ** The square root of a rounded square *)

Lemma shr_inv_m M k mrs :
  1 <= k -> shr_inv M k mrs -> shr_m mrs = M / 2 ^ k.
Proof.
  intros Hk [Hm (rest & Hrest & HM & Hs)].
  assert (Hpow : 2 ^ k = 2 * 2 ^ (k - 1)).
  { replace k with (Z.succ (k - 1)) at 1 by lia. apply Z.pow_succ_r. lia. }
  pose proof (Z.pow_pos_nonneg 2 (k - 1) ltac:(lia) ltac:(lia)) as Hp.
  apply Z.div_unique with (r := (if shr_r mrs then 2 ^ (k - 1) else 0) + rest).
  - left. destruct (shr_r mrs); lia.
  - rewrite HM at 1. lia.
Qed.

(** Rounding to nearest after [k] shifts is off by at most half a unit. *)
Lemma shr_inv_round M k mrs :
  1 <= k -> shr_inv M k mrs ->
  2 * Z.abs (round_nearest_even (shr_m mrs) (loc_of_shr_record mrs) * 2 ^ k - M)
  <= 2 ^ k.
Proof.
  intros Hk [Hm (rest & Hrest & HM & Hs)].
  assert (Hpow : 2 ^ k = 2 * 2 ^ (k - 1)).
  { replace k with (Z.succ (k - 1)) at 1 by lia. apply Z.pow_succ_r. lia. }
  pose proof (Z.pow_pos_nonneg 2 (k - 1) ltac:(lia) ltac:(lia)) as Hp.
  destruct mrs as [m r s]. cbn [shr_m shr_r shr_s] in *.
  assert (Hrest0 : s = false -> rest = 0).
  { intros ->. symmetry in Hs. apply negb_false_iff, Z.eqb_eq in Hs. exact Hs. }
  destruct r, s; cbn [loc_of_shr_record round_nearest_even].
  - lia.
  - specialize (Hrest0 eq_refl). destruct (Z.even m); lia.
  - lia.
  - specialize (Hrest0 eq_refl). lia.
Qed.

(** Rounding an exact mantissa of [53 + n] digits. *)
Lemma binary_round_aux_exact s M E n :
  1 <= n -> 2 ^ (52 + n) <= M < 2 ^ (53 + n) -> -1074 <= E + n ->
  exists l,
    binary_round_aux prec emax s M E loc_Exact
    = rounded53 s (M / 2 ^ n) (E + n) l
    /\ 2 * Z.abs (round_nearest_even (M / 2 ^ n) l * 2 ^ n - M) <= 2 ^ n.
Proof.
  intros Hn HM HE.
  assert (Hd : Zdigits2 M = 53 + n).
  { apply Zdigits2_unique; [| lia]. replace (53 + n - 1) with (52 + n) by lia. exact HM. }
  assert (HM0 : 0 <= M) by (pose proof (Z.pow_pos_nonneg 2 (52 + n)); lia).
  destruct n as [|p|p]; try lia.
  pose proof (shr_inv_pos M p HM0) as Hinv.
  set (mrs := iter_pos shr_1 p (Build_shr_record M false false)) in *.
  assert (H1 : shr_fexp prec emax M E loc_Exact = (mrs, E + Zpos p)).
  { unfold shr_fexp. rewrite Hd, fexp64.
    replace (Z.max (53 + Zpos p + E - 53) (-1074) - E) with (Zpos p) by lia.
    reflexivity. }
  pose proof (shr_inv_m M (Zpos p) mrs Hn Hinv) as Hm.
  exists (loc_of_shr_record mrs). split.
  - assert (Hq : 2 ^ 52 <= M / 2 ^ Zpos p < 2 ^ 53).
    { pose proof (Z.pow_pos_nonneg 2 (Zpos p) ltac:(lia) ltac:(lia)).
      rewrite !Z.pow_add_r in HM by lia. split.
      - apply Z.div_le_lower_bound; lia.
      - apply Z.div_lt_upper_bound; lia. }
    rewrite <- binary_round_aux_53 by lia.
    rewrite !binary_round_aux_eq. cbv zeta. rewrite H1. cbn [fst snd].
    set (l := loc_of_shr_record mrs).
    assert (H2 : shr_fexp prec emax (M / 2 ^ Zpos p) (E + Zpos p) l
                 = (shr_record_of_loc (M / 2 ^ Zpos p) l, E + Zpos p)).
    { unfold shr_fexp.
      replace (Zdigits2 (M / 2 ^ Zpos p)) with 53
        by (symmetry; apply Zdigits2_unique; lia).
      rewrite fexp64.
      replace (Z.max (53 + (E + Zpos p) - 53) (-1074) - (E + Zpos p)) with 0 by lia.
      reflexivity. }
    rewrite H2. cbn [fst snd].
    rewrite shr_record_of_loc_m, loc_of_shr_record_of_loc, Hm. reflexivity.
  - rewrite <- Hm. apply shr_inv_round; assumption.
Qed.

(** The integer square root, rounded to nearest, of a number within
    [m] of [m * m] is [m]. *)
Lemma round_sqrt_near_square m X :
  0 < m -> m * m - m + 1 <= X <= m * m + m ->
  round_nearest_even (Z.sqrt X) (sqrt_loc X (Z.sqrt X)) = m.
Proof.
  intros Hm HX.
  destruct (Z_lt_le_dec X (m * m)) as [Hlt | Hge].
  - assert (Hq : Z.sqrt X = m - 1).
    { apply Z.sqrt_unique. unfold Z.succ. nia. }
    rewrite Hq. unfold sqrt_loc. cbv zeta.
    destruct (Z.eqb_spec (X - (m - 1) * (m - 1)) 0) as [H0 | H0]; [nia |].
    destruct (Z.leb_spec (X - (m - 1) * (m - 1)) (m - 1)) as [Hle | Hgt]; [nia |].
    cbn [round_nearest_even]. lia.
  - assert (Hq : Z.sqrt X = m).
    { apply Z.sqrt_unique. unfold Z.succ. nia. }
    rewrite Hq. unfold sqrt_loc. cbv zeta.
    destruct (Z.eqb_spec (X - m * m) 0) as [H0 | H0]; [reflexivity |].
    destruct (Z.leb_spec (X - m * m) m) as [Hle | Hgt]; [| nia].
    reflexivity.
Qed.

Lemma SFsqrt_near_square m e Mt Et :
  2 ^ 52 <= Zpos m < 2 ^ 53 -> 2 ^ 52 <= Zpos Mt < 2 ^ 53 ->
  -1074 <= Et -> e <= 971 -> Et / 2 - 26 = e ->
  Zpos m * Zpos m - Zpos m + 1 <= Zpos Mt * 2 ^ sqrt_shift Et
    <= Zpos m * Zpos m + Zpos m ->
  SFsqrt prec emax (S754_finite false Mt Et) = S754_finite false m e.
Proof.
  intros Hm HMt HEt He Hhalf HX.
  rewrite SFsqrt_finite_eq, SFsqrt_core_binary_53 by lia.
  cbv zeta. cbn [fst snd].
  assert (Hs : 52 <= sqrt_shift Et <= 53)
    by (unfold sqrt_shift; lia_div).
  pose proof (sqrt_mantissa_53 (Zpos Mt) (sqrt_shift Et) HMt Hs) as Hq.
  assert (He' : -1074 <= Et / 2 - 26) by lia_div.
  rewrite binary_round_aux_53 by lia.
  unfold rounded53. cbv zeta.
  rewrite (round_sqrt_near_square (Zpos m)) by lia.
  rewrite Hhalf.
  destruct (Z.ltb_spec (Zpos m) (2 ^ 53)); [| lia].
  destruct (Z.leb_spec e 971); [| lia].
  reflexivity.
Qed.

(** The square of a normal number, rounded: a number [X] within [m] of
    [m * m], held in the form that [SFsqrt] undoes. *)
Lemma SFmul_square m e s :
  2 ^ 52 <= Zpos m < 2 ^ 53 -> -563 <= e <= 459 ->
  exists Mt Et,
    SFmul prec emax (S754_finite s m e) (S754_finite s m e)
    = S754_finite false Mt Et
    /\ 2 ^ 52 <= Zpos Mt < 2 ^ 53
    /\ 2 * e + 52 <= Et <= 971
    /\ Et / 2 - 26 = e
    /\ Zpos m * Zpos m - Zpos m + 1 <= Zpos Mt * 2 ^ sqrt_shift Et
       <= Zpos m * Zpos m + Zpos m.
Proof.
  intros Hm He. cbn [SFmul]. rewrite xorb_nilpotent, Pos2Z.inj_mul.
  set (M := Zpos m * Zpos m).
  assert (HM : 2 ^ 104 <= M < 2 ^ 106) by (unfold M; nia).
  destruct (Z_lt_le_dec M (2 ^ 105)) as [Hlo | Hhi].
  - (* 105 digits: shift by 52 *)
    destruct (binary_round_aux_exact false M (e + e) 52) as (l & Hr & Herr); try lia.
    rewrite Hr. unfold rounded53. cbv zeta.
    assert (Hq : 2 ^ 52 <= M / 2 ^ 52 < 2 ^ 53).
    { split; [apply Z.div_le_lower_bound | apply Z.div_lt_upper_bound]; lia. }
    pose proof (round_nearest_even_bounds (M / 2 ^ 52) l) as Hb.
    set (Mr := round_nearest_even (M / 2 ^ 52) l) in *.
    destruct (Z.ltb_spec Mr (2 ^ 53)) as [Hlt | Hge].
    + destruct (Z.leb_spec (e + e + 52) 971); [| lia].
      exists (Z.to_pos Mr), (e + e + 52).
      rewrite Z2Pos.id by lia.
      assert (Hsh : sqrt_shift (e + e + 52) = 52)
        by (unfold sqrt_shift; lia_div).
      rewrite Hsh.
      repeat split; try lia.
      lia_div.
    + destruct (Z.leb_spec (e + e + 52 + 1) 971); [| lia].
      exists (2 ^ 52)%positive, (e + e + 52 + 1).
      assert (Hsh : sqrt_shift (e + e + 52 + 1) = 53)
        by (unfold sqrt_shift; lia_div).
      rewrite Hsh.
      assert (HMr : Mr = 2 ^ 53) by lia. rewrite HMr in Herr.
      repeat split; try lia.
      lia_div.
  - (* 106 digits: shift by 53 *)
    destruct (binary_round_aux_exact false M (e + e) 53) as (l & Hr & Herr); try lia.
    rewrite Hr. unfold rounded53. cbv zeta.
    assert (Hq : 2 ^ 52 <= M / 2 ^ 53 < 2 ^ 53).
    { split; [apply Z.div_le_lower_bound | apply Z.div_lt_upper_bound]; lia. }
    pose proof (round_nearest_even_bounds (M / 2 ^ 53) l) as Hb.
    set (Mr := round_nearest_even (M / 2 ^ 53) l) in *.
    assert (Hm' : 2 ^ 52 + 1 <= Zpos m) by (unfold M in Hhi; nia).
    assert (Hlt : Mr < 2 ^ 53).
    { assert (M <= 2 ^ 106 - 2 ^ 54 + 1) by (unfold M; nia). lia. }
    destruct (Z.ltb_spec Mr (2 ^ 53)); [| lia].
    destruct (Z.leb_spec (e + e + 53) 971); [| lia].
    exists (Z.to_pos Mr), (e + e + 53).
    rewrite Z2Pos.id by lia.
    assert (Hsh : sqrt_shift (e + e + 53) = 53)
      by (unfold sqrt_shift; lia_div).
    rewrite Hsh.
    repeat split; try lia.
    lia_div.
Qed.

(** The square root of the rounded square of a normal number is that
    number. *)
Lemma SFsqrt_SFmul_square m e s :
  2 ^ 52 <= Zpos m < 2 ^ 53 -> -563 <= e <= 459 ->
  SFsqrt prec emax (SFmul prec emax (S754_finite s m e) (S754_finite s m e))
  = S754_finite false m e.
Proof.
  intros Hm He.
  destruct (SFmul_square m e s Hm He) as (Mt & Et & -> & HMt & HEt & Hhalf & HX).
  apply SFsqrt_near_square; try assumption; lia.
Qed.

(** ** Results that do not round to zero *)

Lemma div_pow2_pos M d n :
  2 ^ (d - 1) <= M -> 0 <= n <= d - 1 -> 2 ^ (d - 1 - n) <= M / 2 ^ n.
Proof.
  intros HM Hn.
  apply Z.div_le_lower_bound; [apply Z.pow_pos_nonneg; lia |].
  rewrite <- Z.pow_add_r by lia. replace (n + (d - 1 - n)) with (d - 1) by lia.
  exact HM.
Qed.

(** A mantissa whose leading bit is not below the smallest subnormal does
    not round to zero. *)
Lemma binary_round_aux_pos s M E l :
  0 < M -> -1074 <= E + Zdigits2 M - 1 ->
  binary_round_aux prec emax s M E l = S754_infinity s
  \/ exists m e, binary_round_aux prec emax s M E l = S754_finite s m e.
Proof.
  intros HM HE. rewrite binary_round_aux_eq. cbv zeta.
  pose proof (Zdigits2_bounds M HM) as [Hlo Hhi].
  set (d := Zdigits2 M) in *.
  assert (Hd : 1 <= d).
  { destruct (Z_lt_le_dec d 1); auto.
    pose proof (Zdigits2_nonneg M).
    assert (2 ^ d <= 2 ^ 0) by (apply Z.pow_le_mono_r; unfold d; lia).
    change (2 ^ 0) with 1 in *. lia. }
  rewrite (shr_fexp_e M E l). fold d. rewrite fexp64.
  set (n1 := Z.max (Z.max (d + E - 53) (-1074) - E) 0).
  pose proof (shr_fexp_m M E l ltac:(lia)) as Hm1. fold d in Hm1.
  rewrite fexp64 in Hm1. fold n1 in Hm1.
  pose proof (div_pow2_pos M d n1 Hlo ltac:(lia)) as Hq1.
  rewrite <- Hm1 in Hq1.
  pose proof (round_nearest_even_bounds (shr_m (fst (shr_fexp prec emax M E l)))
                (loc_of_shr_record (fst (shr_fexp prec emax M E l)))) as Hb.
  set (M2 := round_nearest_even _ _) in *.
  assert (Hp1 : 0 < 2 ^ (d - 1 - n1)) by (apply Z.pow_pos_nonneg; lia).
  assert (HM2 : 0 < M2) by lia.
  pose proof (Zdigits2_bounds M2 HM2) as [Hlo2 Hhi2].
  assert (Hd2 : d - n1 <= Zdigits2 M2).
  { apply Zdigits2_ge; [| lia]. replace (d - n1 - 1) with (d - 1 - n1) by lia. lia. }
  set (d2 := Zdigits2 M2) in *.
  pose proof (shr_fexp_m M2 (E + n1) loc_Exact ltac:(lia)) as Hm2. fold d2 in Hm2.
  rewrite fexp64 in Hm2.
  set (n2 := Z.max (Z.max (d2 + (E + n1) - 53) (-1074) - (E + n1)) 0) in *.
  pose proof (div_pow2_pos M2 d2 n2 Hlo2 ltac:(lia)) as Hq2.
  rewrite <- Hm2 in Hq2.
  assert (Hp2 : 0 < 2 ^ (d2 - 1 - n2)) by (apply Z.pow_pos_nonneg; lia).
  destruct (shr_m (fst (shr_fexp prec emax M2 (E + n1) loc_Exact))) as [|p|p]; try lia.
  destruct (_ <=? _); eauto.
Qed.

Lemma SFmul_square_pos Mt Et :
  2 ^ 52 <= Zpos Mt < 2 ^ 53 -> -588 <= Et ->
  SFltb (S754_zero false)
    (SFmul prec emax (S754_finite false Mt Et) (S754_finite false Mt Et)) = true.
Proof.
  intros HMt HEt. cbn [SFmul xorb].
  destruct (binary_round_aux_pos false (Zpos (Mt * Mt)) (Et + Et) loc_Exact)
    as [-> | (m & e & ->)]; try reflexivity; try lia.
  assert (105 <= Zdigits2 (Zpos (Mt * Mt))).
  { apply Zdigits2_ge; [| lia]. rewrite Pos2Z.inj_mul.
    change (2 ^ (105 - 1)) with (2 ^ 52 * 2 ^ 52). nia. }
  lia.
Qed.

(** ** Doubling an operand *)

Lemma shr_fst_same mrs e e' n n' :
  Z.max n 0 = Z.max n' 0 -> fst (shr mrs e n) = fst (shr mrs e' n').
Proof.
  destruct n as [|p|p], n' as [|q|q]; cbn [shr fst]; intros H; try reflexivity; try lia.
  assert (p = q) by lia. subst q. reflexivity.
Qed.

(** Same shift, exponent one higher. *)
Lemma shr_fexp_succ M E l :
  Z.max (fexp prec emax (Zdigits2 M + E) - E) 0
  = Z.max (fexp prec emax (Zdigits2 M + (E + 1)) - (E + 1)) 0 ->
  shr_fexp prec emax M (E + 1) l
  = (fst (shr_fexp prec emax M E l), snd (shr_fexp prec emax M E l) + 1).
Proof.
  intros H. rewrite (surjective_pairing (shr_fexp prec emax M (E + 1) l)).
  f_equal.
  - unfold shr_fexp. symmetry. apply shr_fst_same. exact H.
  - rewrite !shr_fexp_e. lia.
Qed.

Lemma bounded_canonical m e :
  bounded prec emax m e = true ->
  Z.max (Zpos (digits2_pos m) + e - 53) (-1074) = e /\ e <= 971.
Proof.
  unfold bounded, canonical_mantissa.
  rewrite andb_true_iff, Z.eqb_eq, Z.leb_le, fexp64.
  change (emax - prec) with 971. auto.
Qed.

(** Below the normal range the rounded exponent is the least one. *)
Lemma binary_round_aux_low s M E l s' m' e' :
  0 <= M -> Zdigits2 M + E - 53 < -1074 ->
  binary_round_aux prec emax s M E l = S754_finite s' m' e' ->
  bounded prec emax m' e' = true ->
  e' = -1074.
Proof.
  intros HM Hlow. rewrite binary_round_aux_eq. cbv zeta.
  set (d := Zdigits2 M) in *.
  assert (Hd0 : 0 <= d) by apply Zdigits2_nonneg.
  assert (HMd : M < 2 ^ d).
  { destruct (Z.eq_dec M 0) as [-> | Hne]; [apply Z.pow_pos_nonneg; lia |].
    apply Zdigits2_bounds. lia. }
  rewrite (shr_fexp_e M E l). fold d. rewrite fexp64.
  pose proof (shr_fexp_m M E l HM) as Hm1. fold d in Hm1. rewrite fexp64 in Hm1.
  replace (Z.max (d + E - 53) (-1074)) with (-1074) in * by lia.
  set (n1 := Z.max (-1074 - E) 0) in *.
  pose proof (round_nearest_even_bounds (shr_m (fst (shr_fexp prec emax M E l)))
                (loc_of_shr_record (fst (shr_fexp prec emax M E l)))) as Hb.
  set (M2 := round_nearest_even _ _) in *.
  assert (Hm1pos : 0 <= M / 2 ^ n1).
  { apply Z.div_pos; [lia | apply Z.pow_pos_nonneg; lia]. }
  assert (HM2 : 0 <= M2) by lia.
  rewrite (shr_fexp_e M2 (E + n1) loc_Exact).
  pose proof (shr_fexp_m M2 (E + n1) loc_Exact HM2) as Hm2.
  rewrite fexp64 in *.
  set (d2 := Zdigits2 M2) in *.
  destruct (Z_lt_le_dec 0 (-1074 - E)) as [Hpos | Hneg].
  - (* shifted down to the least exponent *)
    assert (Hn1 : n1 = -1074 - E) by (unfold n1; lia).
    assert (Hq : M / 2 ^ n1 < 2 ^ 52).
    { apply Z.div_lt_upper_bound; [apply Z.pow_pos_nonneg; lia |].
      destruct (Z_lt_le_dec d n1) as [Hdn | Hdn].
      - assert (2 ^ d <= 2 ^ n1) by (apply Z.pow_le_mono_r; lia).
        assert (0 < 2 ^ 52) by lia. nia.
      - rewrite <- Z.pow_add_r by lia.
        assert (2 ^ d <= 2 ^ (n1 + 52)) by (apply Z.pow_le_mono_r; lia). lia. }
    assert (Hd2 : d2 <= 53) by (apply Zdigits2_le; lia).
    replace (Z.max (Z.max (d2 + (E + n1) - 53) (-1074) - (E + n1)) 0) with 0 in * by lia.
    destruct (shr_m (fst (shr_fexp prec emax M2 (E + n1) loc_Exact))); try discriminate.
    destruct (_ <=? _); try discriminate.
    intros Hres Hbd. injection Hres as _ _ He. lia.
  - (* no shift: the result is canonical only at the least exponent *)
    assert (Hn1 : n1 = 0) by (unfold n1; lia).
    rewrite Hn1, Z.add_0_r in *. change (2 ^ 0) with 1 in Hm1. rewrite Z.div_1_r in Hm1.
    assert (Hd2 : d2 <= d + 1).
    { apply Zdigits2_le; [| lia]. rewrite Z.pow_add_r by lia. lia. }
    replace (Z.max (Z.max (d2 + E - 53) (-1074) - E) 0) with 0 in * by lia.
    change (2 ^ 0) with 1 in Hm2. rewrite Z.div_1_r in Hm2. rewrite Hm2.
    destruct M2 as [|p|p]; try discriminate; try lia.
    destruct (_ <=? _); try discriminate.
    intros Hres Hbd. injection Hres as _ Hp He. subst m' e'.
    apply bounded_canonical in Hbd. destruct Hbd as [Hc _].
    change (Zpos (digits2_pos p)) with d2 in Hc. lia.
Qed.

(** In the normal range, one more in the exponent of the input is one
    more in the exponent of the result. *)
Lemma binary_round_aux_succ s M E l s' m' e' :
  0 <= M ->
  binary_round_aux prec emax s M E l = S754_finite s' m' e' ->
  bounded prec emax m' e' = true ->
  -1074 < e' < 971 ->
  binary_round_aux prec emax s M (E + 1) l = S754_finite s' m' (e' + 1).
Proof.
  intros HM Hres Hbd He'.
  destruct (Z_lt_le_dec (Zdigits2 M + E - 53) (-1074)) as [Hlow | Hnorm].
  { pose proof (binary_round_aux_low s M E l s' m' e' HM Hlow Hres Hbd). lia. }
  revert Hres. rewrite !binary_round_aux_eq. cbv zeta.
  rewrite (shr_fexp_succ M E l) by (rewrite !fexp64; lia).
  cbn [fst snd].
  set (p1 := shr_fexp prec emax M E l).
  set (M2 := round_nearest_even _ _).
  set (e1 := snd p1).
  destruct (Z_lt_le_dec (Zdigits2 M2 + e1 - 53) (-1074)) as [Hlow2 | Hnorm2].
  - destruct (Z_lt_le_dec 0 (-1074 - e1)) as [Hpos | Hneg].
    + (* the second shift would end at the least exponent *)
      rewrite (shr_fexp_e M2 e1 loc_Exact), fexp64.
      destruct (shr_m (fst (shr_fexp prec emax M2 e1 loc_Exact))); try discriminate.
      destruct (_ <=? _); try discriminate.
      intros Hres. injection Hres as _ _ He. lia.
    + rewrite (shr_fexp_succ M2 e1 loc_Exact) by (rewrite !fexp64; lia).
      cbn [fst snd].
      destruct (shr_m (fst (shr_fexp prec emax M2 e1 loc_Exact))); try discriminate.
      destruct (Z.leb_spec (snd (shr_fexp prec emax M2 e1 loc_Exact)) (emax - prec));
        try discriminate.
      intros Hres. injection Hres as -> -> He. rewrite He.
      destruct (Z.leb_spec (e' + 1) (emax - prec)); [reflexivity |].
      change (emax - prec) with 971 in *. lia.
  - rewrite (shr_fexp_succ M2 e1 loc_Exact) by (rewrite !fexp64; lia).
    cbn [fst snd].
    destruct (shr_m (fst (shr_fexp prec emax M2 e1 loc_Exact))); try discriminate.
    destruct (Z.leb_spec (snd (shr_fexp prec emax M2 e1 loc_Exact)) (emax - prec));
      try discriminate.
    intros Hres. injection Hres as -> -> He. rewrite He.
    destruct (Z.leb_spec (e' + 1) (emax - prec)); [reflexivity |].
    change (emax - prec) with 971 in *. lia.
Qed.

(** Doubling a normal number below [2^1023] adds one to its exponent. *)
Lemma SFmul_2 s m e :
  (2 ^ 52 <= Zpos m < 2 ^ 53)%Z -> (-1074 <= e <= 970)%Z ->
  SFmul prec emax (S754_finite false (2 ^ 52) (-51)) (S754_finite s m e)
  = S754_finite s m (e + 1).
Proof.
  intros Hm He. cbn [SFmul xorb].
  destruct (binary_round_aux_exact s (Zpos (2 ^ 52 * m)) (-51 + e) 52)
    as (l & Hr & Herr); try lia.
  rewrite Hr. unfold rounded53. cbv zeta.
  assert (Hq : (Zpos (2 ^ 52 * m) / 2 ^ 52 = Zpos m)%Z).
  { rewrite Pos2Z.inj_mul, Z.mul_comm. apply Z.div_mul. lia. }
  rewrite Hq in *.
  pose proof (round_nearest_even_bounds (Zpos m) l) as Hb.
  assert (HMr : round_nearest_even (Zpos m) l = Zpos m) by lia.
  rewrite HMr.
  destruct (Z.ltb_spec (Zpos m) (2 ^ 53)); [| lia].
  replace (-51 + e + 52)%Z with (e + 1)%Z by lia.
  destruct (Z.leb_spec (e + 1) 971); [| lia].
  reflexivity.
Qed.

(** The division core without its lets. *)
Lemma SFdiv_core_binary_eq m1 e1 m2 e2 :
  SFdiv_core_binary prec emax (Zpos m1) e1 (Zpos m2) e2 =
  let e' := div_exp m1 e1 m2 e2 in
  let m' := Zpos m1 * 2 ^ (e1 - e2 - e') in
  (m' / Zpos m2, e', new_location (Zpos m2) (m' mod Zpos m2)).
Proof.
  unfold SFdiv_core_binary. rewrite fexp64. fold (div_exp m1 e1 m2 e2).
  cbv zeta. set (e' := div_exp m1 e1 m2 e2).
  assert (Hsh : 0 <= e1 - e2 - e') by (unfold e', div_exp; lia).
  assert (Hm' : match e1 - e2 - e' with
                | Zpos _ => Z.shiftl (Zpos m1) (e1 - e2 - e')
                | Z0 => Zpos m1
                | Zneg _ => 0
                end = Zpos m1 * 2 ^ (e1 - e2 - e')).
  { destruct (e1 - e2 - e') eqn:E; try lia.
    rewrite Z.shiftl_mul_pow2 by lia. reflexivity. }
  rewrite Hm'. unfold Z.div, Z.modulo.
  destruct (Z.div_eucl (Zpos m1 * 2 ^ (e1 - e2 - e')) (Zpos m2)) as [q r].
  reflexivity.
Qed.

Lemma S754_finite_inj s m e s' m' e' :
  S754_finite s m e = S754_finite s' m' e' -> s = s' /\ m = m' /\ e = e'.
Proof. intros H. inversion H. auto. Qed.

Lemma binary_round_aux_small s M E l s' m' e' :
  0 <= M < 2 ^ 53 -> E <= -1074 ->
  binary_round_aux prec emax s M E l = S754_finite s' m' e' ->
  e' <= -1073.
Proof.
  intros HM HE. rewrite binary_round_aux_eq. cbv zeta.
  assert (Hd : Zdigits2 M <= 53) by (apply Zdigits2_le; lia).
  pose proof (Zdigits2_nonneg M) as Hd0.
  rewrite (shr_fexp_e M E l), fexp64.
  pose proof (shr_fexp_m M E l ltac:(lia)) as Hm1. rewrite fexp64 in Hm1.
  replace (Z.max (Zdigits2 M + E - 53) (-1074)) with (-1074) in * by lia.
  replace (Z.max (-1074 - E) 0) with (-1074 - E) in * by lia.
  replace (E + (-1074 - E)) with (-1074) by lia.
  pose proof (round_nearest_even_bounds (shr_m (fst (shr_fexp prec emax M E l)))
                (loc_of_shr_record (fst (shr_fexp prec emax M E l)))) as Hb.
  set (M2 := round_nearest_even _ _) in *.
  assert (Hq : 0 <= M / 2 ^ (-1074 - E) <= M).
  { split; [apply Z.div_pos; [lia | apply Z.pow_pos_nonneg; lia] |].
    apply Z.div_le_upper_bound; [apply Z.pow_pos_nonneg; lia |].
    assert (1 <= 2 ^ (-1074 - E)) by (pose proof (Z.pow_pos_nonneg 2 (-1074 - E)); lia).
    nia. }
  assert (HM2 : 0 <= M2 < 2 ^ 54) by (clearbody M2; lia).
  assert (Hd2 : Zdigits2 M2 <= 54) by (apply Zdigits2_le; [exact HM2 | lia]).
  pose proof (Zdigits2_nonneg M2) as Hd20.
  rewrite (shr_fexp_e M2 (-1074) loc_Exact), fexp64.
  destruct (shr_m (fst (shr_fexp prec emax M2 (-1074) loc_Exact))); try discriminate.
  destruct (_ <=? _); try discriminate.
  intros Hres. apply S754_finite_inj in Hres. destruct Hres as (_ & _ & He).
  clearbody M2. lia.
Qed.

(** Doubling the dividend of a quotient in range adds one to the
    exponent of the quotient. *)
Lemma SFdiv_succ s m e sy my ey s' m' e' :
  2 ^ 52 <= Zpos m < 2 ^ 53 ->
  SFdiv prec emax (S754_finite s m e) (S754_finite sy my ey) = S754_finite s' m' e' ->
  bounded prec emax m' e' = true ->
  -1072 <= e' < 971 ->
  SFdiv prec emax (S754_finite s m (e + 1)) (S754_finite sy my ey)
  = S754_finite s' m' (e' + 1).
Proof.
  intros Hm. cbn [SFdiv]. rewrite !SFdiv_core_binary_eq. cbv zeta.
  assert (Hd1 : Zdigits2 (Zpos m) = 53) by (apply Zdigits2_unique; lia).
  pose proof (Zdigits2_bounds (Zpos my) ltac:(lia)) as Hmy.
  set (d2 := Zdigits2 (Zpos my)) in *.
  assert (Hd2 : 1 <= d2).
  { destruct (Z_lt_le_dec d2 1); auto.
    pose proof (Zdigits2_nonneg (Zpos my)).
    assert (2 ^ d2 <= 2 ^ 0) by (apply Z.pow_le_mono_r; unfold d2; lia).
    change (2 ^ 0) with 1 in *. lia. }
  intros Hres Hbd He'.
  destruct (Z_lt_le_dec (53 + e - (d2 + ey) - 53) (-1074)) as [Hlow | Hnorm].
  - (* the quotient would sit at the bottom of the range *)
    exfalso. revert Hres.
    unfold div_exp. rewrite Hd1. fold d2.
    replace (Z.max (53 + e - (d2 + ey) - 53) (-1074)) with (-1074) by lia.
    set (e0 := Z.min (-1074) (e - ey)).
    set (sh := e - ey - e0).
    assert (Hsh : 0 <= sh) by (unfold sh, e0; lia).
    assert (Hq : 0 <= Zpos m * 2 ^ sh / Zpos my < 2 ^ 53).
    { assert (Hp : 0 < 2 ^ sh) by (apply Z.pow_pos_nonneg; lia).
      split; [apply Z.div_pos; nia |].
      apply Z.div_lt_upper_bound; [lia |].
      destruct (Z_lt_le_dec (d2 - 1) sh) as [Hbig | Hsmall].
      - (* sh <= d2 - 1 + (52 - ...) *)
        assert (Hshd : sh <= d2 - 1) by (unfold sh, e0; lia). lia.
      - assert (2 ^ sh <= 2 ^ (d2 - 1)) by (apply Z.pow_le_mono_r; lia).
        nia. }
    intros Hres.
    apply binary_round_aux_small in Hres; [lia | exact Hq | unfold e0; lia].
  - assert (Hexp : div_exp m (e + 1) my ey = div_exp m e my ey + 1).
    { unfold div_exp. rewrite Hd1. fold d2. lia. }
    rewrite Hexp.
    replace (e + 1 - ey - (div_exp m e my ey + 1))
      with (e - ey - div_exp m e my ey) by lia.
    apply binary_round_aux_succ; try assumption; try lia.
    apply Z.div_pos; [| lia].
    apply Z.mul_nonneg_nonneg; [lia |]. apply Z.pow_nonneg. lia.
Qed.

Local Close Scope Z_scope.

(** * JavaScript numbers

    Facts on primitive floats, read through [Prim2SF]. *)

(** ** NaN, constants and [Math.max] *)

Lemma is_nan_Prim2SF x : is_nan x = true <-> Prim2SF x = S754_nan.
Proof.
  unfold is_nan. rewrite eqb_spec. unfold SFeqb. split.
  - intros H. destruct (Prim2SF x) eqn:E; auto;
      rewrite SFcompare_refl in H by discriminate; discriminate.
  - intros ->. reflexivity.
Qed.

Lemma is_nan_false_Prim2SF x : is_nan x = false <-> Prim2SF x <> S754_nan.
Proof.
  rewrite <- is_nan_Prim2SF. destruct (is_nan x); split; congruence.
Qed.

Lemma Math_max_0 x :
  Math_max [0; x] = if is_nan x then nan else if 0 <? x then x else 0.
Proof.
  unfold Math_max, Math_max_from.
  change (is_nan 0) with false. cbv iota.
  change (is_pzero 0 && is_nzero neg_infinity) with false. cbv iota.
  change (neg_infinity <? 0) with true. cbv iota.
  change (is_nzero 0) with false.
  destruct (is_nan x); [reflexivity |].
  rewrite andb_false_r. reflexivity.
Qed.

Lemma Prim2SF_0 : Prim2SF 0 = S754_zero false.
Proof. reflexivity. Qed.

Lemma Prim2SF_infinity : Prim2SF infinity = S754_infinity false.
Proof. reflexivity. Qed.

Lemma four_ln2_squared :
  exists m e, Prim2SF (4 * Math_LN2 * (4 * Math_LN2)) = S754_finite false m e.
Proof. eexists _, _. reflexivity. Qed.

Lemma four_ln2_cubed :
  exists m e,
    Prim2SF (4 * Math_LN2 * (4 * Math_LN2) * (4 * Math_LN2)) = S754_finite false m e.
Proof. eexists _, _. reflexivity. Qed.

Lemma Prim2SF_1 : Prim2SF 1 = S754_finite false (2 ^ 52) (-52).
Proof. reflexivity. Qed.

Lemma Prim2SF_neg_infinity : Prim2SF neg_infinity = S754_infinity true.
Proof. reflexivity. Qed.

Lemma ltb_neg_infinity x :
  is_nan x = false -> (neg_infinity <? x) = false -> x = neg_infinity.
Proof.
  intros Hn Hlt. apply Prim2SF_inj. rewrite Prim2SF_neg_infinity.
  apply is_nan_false_Prim2SF in Hn.
  rewrite ltb_spec, Prim2SF_neg_infinity in Hlt.
  destruct (Prim2SF x) as [s | [] | | s m e]; try discriminate Hlt; congruence.
Qed.

Lemma Math_max_1 x :
  Math_max [x; 1] = if is_nan x then nan else if x <? 1 then 1 else x.
Proof.
  unfold Math_max, Math_max_from.
  destruct (is_nan x) eqn:Hn; [reflexivity |].
  change (is_nzero neg_infinity) with false. rewrite andb_false_r.
  change (is_nan 1) with false. cbv iota.
  change (is_pzero 1) with false. cbn [andb].
  destruct (neg_infinity <? x) eqn:Hlt; [reflexivity |].
  rewrite (ltb_neg_infinity x Hn Hlt). reflexivity.
Qed.

(** ** Ranges *)

Lemma Prim2SF_2p512 : Prim2SF 0x1p512 = S754_finite false (2 ^ 52) 460.
Proof. reflexivity. Qed.

Lemma Prim2SF_2pm268 : Prim2SF 0x1p-268 = S754_finite false (2 ^ 52) (-320).
Proof. reflexivity. Qed.

(** A float in [[2^-268, 2^512)] is a positive normal number. *)
Lemma Prim2SF_in_square_range x :
  (0x1p-268 <=? x) = true -> (x <? 0x1p512) = true ->
  exists m e, Prim2SF x = S754_finite false m e
    /\ (2 ^ 52 <= Zpos m < 2 ^ 53)%Z /\ (-320 <= e <= 459)%Z.
Proof.
  rewrite leb_spec, ltb_spec, Prim2SF_2p512, Prim2SF_2pm268.
  pose proof (Prim2SF_valid x) as Hv.
  destruct (Prim2SF x) as [s | [] | | [] m e]; try discriminate.
  intros Hlo Hhi. exists m, e. split; [reflexivity |].
  unfold SFleb in Hlo. unfold SFltb in Hhi. cbn [SFcompare] in Hlo, Hhi.
  assert (He : (-320 <= e)%Z).
  { destruct (Z.compare_spec (-320) e); try discriminate Hlo; lia. }
  destruct (valid_normal m e false Hv ltac:(lia)) as [Hm He2].
  split; [exact Hm |]. split; [exact He |].
  destruct (Z.compare_spec e 460) as [Heq | Hlt | Hgt]; try discriminate Hhi; try lia.
  rewrite Pos.compare_cont_spec in Hhi. cbn [Pos.switch_Eq] in Hhi.
  destruct (Pos.compare_spec m (2 ^ 52)%positive); try discriminate Hhi. lia.
Qed.

Lemma div_zero_pos x : (0 <? x) = true -> 0 / x = 0.
Proof.
  intros H. apply Prim2SF_inj. rewrite div_spec, Prim2SF_0.
  rewrite ltb_spec, Prim2SF_0 in H.
  apply SFltb_zero_pos in H. destruct H as [-> | (m & e & ->)]; reflexivity.
Qed.

Lemma add_zero_pos x : (0 <? x) = true -> x + 0 = x.
Proof.
  intros H. apply Prim2SF_inj. rewrite add_spec, Prim2SF_0.
  rewrite ltb_spec, Prim2SF_0 in H.
  apply SFltb_zero_pos in H. destruct H as [-> | (m & e & ->)]; reflexivity.
Qed.

(** ** Doubling *)

Lemma Prim2SF_2 : Prim2SF 2 = S754_finite false (2 ^ 52) (-51).
Proof. reflexivity. Qed.

Lemma Prim2SF_2pm1020 : Prim2SF 0x1p-1020 = S754_finite false (2 ^ 52) (-1072).
Proof. reflexivity. Qed.

Lemma Prim2SF_2p1023 : Prim2SF 0x1p1023 = S754_finite false (2 ^ 52) 971.
Proof. reflexivity. Qed.

(** A float in range is a normal number with room on both sides. *)
Lemma Prim2SF_in_range x :
  in_range x = true ->
  exists s m e, Prim2SF x = S754_finite s m e
    /\ (2 ^ 52 <= Zpos m < 2 ^ 53)%Z /\ (-1072 <= e <= 970)%Z.
Proof.
  unfold in_range.
  rewrite andb_true_iff, leb_spec, ltb_spec, abs_spec, Prim2SF_2pm1020, Prim2SF_2p1023.
  pose proof (Prim2SF_valid x) as Hv.
  destruct (Prim2SF x) as [s | s | | s m e]; cbn [SFabs]; intros [Hlo Hhi];
    try discriminate.
  exists s, m, e. split; [reflexivity |].
  unfold SFleb in Hlo. unfold SFltb in Hhi. cbn [SFcompare] in Hlo, Hhi.
  assert (He : (-1072 <= e)%Z).
  { destruct (Z.compare_spec (-1072) e); try discriminate Hlo; lia. }
  destruct (valid_normal m e s Hv ltac:(lia)) as [Hm He2].
  split; [exact Hm |]. split; [exact He |].
  destruct (Z.compare_spec e 971) as [Heq | Hlt | Hgt]; try discriminate Hhi; try lia.
  rewrite Pos.compare_cont_spec in Hhi. cbn [Pos.switch_Eq] in Hhi.
  destruct (Pos.compare_spec m (2 ^ 52)%positive); try discriminate Hhi. lia.
Qed.

Lemma double_in_range x s m e :
  Prim2SF x = S754_finite s m e ->
  (2 ^ 52 <= Zpos m < 2 ^ 53)%Z -> (-1074 <= e <= 970)%Z ->
  Prim2SF (2 * x) = S754_finite s m (e + 1).
Proof.
  intros Hx Hm He. rewrite mul_spec, Prim2SF_2, Hx. now apply SFmul_2.
Qed.

(** Doubling commutes with a product that stays in range. *)
Lemma mul_double x y :
  in_range x = true -> in_range (x * y) = true ->
  2 * x * y = 2 * (x * y).
Proof.
  intros Hx Hxy.
  destruct (Prim2SF_in_range x Hx) as (s & m & e & Ex & Hm & He).
  destruct (Prim2SF_in_range (x * y) Hxy) as (s' & m' & e' & Exy & Hm' & He').
  pose proof (Prim2SF_valid (x * y)) as Hv. rewrite Exy in Hv.
  apply Prim2SF_inj.
  rewrite (double_in_range (x * y) s' m' e' Exy Hm' ltac:(lia)).
  rewrite mul_spec, (double_in_range x s m e Ex Hm ltac:(lia)).
  rewrite mul_spec, Ex in Exy.
  destruct (Prim2SF y) as [sy | sy | | sy my ey]; try discriminate Exy.
  unfold SF64mul in *. cbn [SFmul] in *.
  replace (e + 1 + ey)%Z with (e + ey + 1)%Z by lia.
  apply binary_round_aux_succ; try assumption; lia.
Qed.

Lemma div_double x y :
  in_range x = true -> in_range (x / y) = true ->
  2 * x / y = 2 * (x / y).
Proof.
  intros Hx Hxy.
  destruct (Prim2SF_in_range x Hx) as (s & m & e & Ex & Hm & He).
  destruct (Prim2SF_in_range (x / y) Hxy) as (s' & m' & e' & Exy & Hm' & He').
  pose proof (Prim2SF_valid (x / y)) as Hv. rewrite Exy in Hv.
  apply Prim2SF_inj.
  rewrite (double_in_range (x / y) s' m' e' Exy Hm' ltac:(lia)).
  rewrite div_spec, (double_in_range x s m e Ex Hm ltac:(lia)).
  rewrite div_spec, Ex in Exy. unfold SF64div in *.
  destruct (Prim2SF y) as [sy | sy | | sy my ey]; try discriminate Exy.
  apply SFdiv_succ; try assumption; lia.
Qed.

(** * The engine *)

(** ** Stack aggregator *)

Section Aggregator.

Variable Math_pow : number -> number -> number.

(** An excluded element leaves both running totals as they are. *)
Lemma step_excluded lambdaNm totals s :
  type s = "Air"%string \/ (refractiveIndex s <=? 1.01) = true ->
  computeDispersion_step Math_pow lambdaNm totals s = totals.
Proof.
  intros H. unfold computeDispersion_step. destruct totals as [g t].
  destruct H as [H | H].
  - rewrite H. reflexivity.
  - rewrite H, orb_true_r. reflexivity.
Qed.

(** So does an element whose material has no coefficient set. *)
Lemma step_unresolved lambdaNm totals s :
  getSellmeier (material s) = None ->
  computeDispersion_step Math_pow lambdaNm totals s = totals.
Proof.
  intros H. unfold computeDispersion_step. destruct totals as [g t].
  rewrite H. destruct (_ || _); reflexivity.
Qed.

(** Removing an element on which the loop body is the identity does not
    change the result. *)
Lemma computeDispersion_drop pre s post lambdaNm pulseWidthFs :
  (forall totals, computeDispersion_step Math_pow lambdaNm totals s = totals) ->
  computeDispersion Math_pow (pre ++ s :: post) lambdaNm pulseWidthFs
  = computeDispersion Math_pow (pre ++ post) lambdaNm pulseWidthFs.
Proof.
  intros Hs. unfold computeDispersion.
  rewrite !fold_left_app. cbn [fold_left]. rewrite Hs. reflexivity.
Qed.

(** C1. An element tagged "Air" or with nominal index <= 1.01 adds
    nothing to the GDD and TOD totals, whatever its material and
    thickness: the stack with the element gives the same result as the
    stack without it. *)
Theorem computeDispersion_excluded_element pre s post lambdaNm pulseWidthFs :
  type s = "Air"%string \/ (refractiveIndex s <=? 1.01) = true ->
  computeDispersion Math_pow (pre ++ s :: post) lambdaNm pulseWidthFs
  = computeDispersion Math_pow (pre ++ post) lambdaNm pulseWidthFs.
Proof.
  intros H. apply computeDispersion_drop.
  intros totals. now apply step_excluded.
Qed.

(** C7. An element whose material does not resolve in the registry is
    skipped: the stack with the element gives the same result (a record,
    no error) as the stack without it. *)
Theorem computeDispersion_unknown_material pre s post lambdaNm pulseWidthFs :
  getSellmeier (material s) = None ->
  computeDispersion Math_pow (pre ++ s :: post) lambdaNm pulseWidthFs
  = computeDispersion Math_pow (pre ++ post) lambdaNm pulseWidthFs.
Proof.
  intros H. apply computeDispersion_drop.
  intros totals. now apply step_unresolved.
Qed.

(** C10. The input pulse duration reaches only the predicted exit pulse
    width: the GDD and TOD fields are the same for any two durations. *)
Theorem computeDispersion_totals_ignore_pulse surfaces lambdaNm tau1 tau2 :
  DispersionResult.gddFs2 (computeDispersion Math_pow surfaces lambdaNm tau1)
  = DispersionResult.gddFs2 (computeDispersion Math_pow surfaces lambdaNm tau2)
  /\ DispersionResult.todFs3 (computeDispersion Math_pow surfaces lambdaNm tau1)
     = DispersionResult.todFs3 (computeDispersion Math_pow surfaces lambdaNm tau2).
Proof.
  unfold computeDispersion.
  destruct (fold_left (computeDispersion_step Math_pow lambdaNm) surfaces (0, 0))
    as [g t].
  split; reflexivity.
Qed.

End Aggregator.

Lemma computeDispersion_excluded_element_witness :
  computeDispersion pow_by_multiplication
    ([silica6] ++ air_gap :: [low_index; silica6]) 800 100
  = computeDispersion pow_by_multiplication
    ([silica6] ++ [low_index; silica6]) 800 100.
Proof.
  apply (computeDispersion_excluded_element pow_by_multiplication).
  left. reflexivity.
Defined.

Lemma computeDispersion_unknown_material_witness :
  computeDispersion pow_by_multiplication
    ([silica6] ++ unobtainium :: []) 800 100
  = computeDispersion pow_by_multiplication ([silica6] ++ []) 800 100.
Proof.
  apply (computeDispersion_unknown_material pow_by_multiplication).
  reflexivity.
Defined.

(** ** Fallback for unknown materials *)

(** C9. For a material that does not resolve in the registry the
    evaluator returns the caller's fallback index itself. *)
Theorem refractiveIndexAtWavelength_fallback lambdaNm material nDefault :
  getSellmeier material = None ->
  refractiveIndexAtWavelength lambdaNm material nDefault = nDefault.
Proof.
  intros H. unfold refractiveIndexAtWavelength. now rewrite H.
Qed.

Lemma refractiveIndexAtWavelength_fallback_witness :
  refractiveIndexAtWavelength 800 "unobtainium" 1.7 = 1.7.
Proof.
  apply refractiveIndexAtWavelength_fallback. reflexivity.
Defined.

(** ** Derivative estimator *)

(** C3. The second-derivative estimator is the three-point stencil on
    [n] with step 0.5 nm, and the third-derivative estimator is the
    two-point stencil applied to the second-derivative estimator. *)
Theorem derivative_estimators_are_stencils lambdaNm coeffs :
  d2n_dlambda2 lambdaNm coeffs
  = three_point_second (fun l => nFromSellmeier l coeffs) 0.5 lambdaNm
  /\ d3n_dlambda3 lambdaNm coeffs
     = two_point_first (fun l => d2n_dlambda2 l coeffs) 0.5 lambdaNm.
Proof.
  split; reflexivity.
Qed.

(** ** Name matching in the registry *)

Local Open Scope string_scope.

(** Matching goes through [toLowerCase] and [trim] only. *)
Lemma getSellmeier_normalised s1 s2 :
  trim (toLowerCase s1) = trim (toLowerCase s2) ->
  getSellmeier s1 = getSellmeier s2.
Proof.
  intros H. unfold getSellmeier. now rewrite H.
Qed.

(** C8, as stated, fails on its own example: "N-SF5" resolves and "sf5"
    does not; nor does a catalog name with the hyphen dropped, such as
    "NSF11". *)
Lemma getSellmeier_sf5_not_resolved :
  getSellmeier "N-SF5" = Some coeffs_F2
  /\ getSellmeier "sf5" = None
  /\ getSellmeier "N-SF11" = Some coeffs_SF11
  /\ getSellmeier "NSF11" = None.
Proof.
  repeat split; reflexivity.
Qed.

(** C8, amended. Matching ignores letter case and surrounding white
    space.  For N-BK7, N-SF11, N-BAF10 and N-LAK9 the name resolves to
    the same coefficient set with the "N-" prefix present or absent; the
    hyphen may be dropped for N-BK7 only, and "fused silica" may be
    written with a hyphen. *)
Theorem getSellmeier_name_variants :
  (forall s1 s2, toLowerCase s1 = toLowerCase s2 ->
                 getSellmeier s1 = getSellmeier s2)
  /\ (forall g c,
        In (g, c) [("BK7", coeffs_BK7); ("SF11", coeffs_SF11);
                   ("BAF10", coeffs_BAF10); ("LAK9", coeffs_LAK9)] ->
        getSellmeier ("N-" ++ g) = Some c /\ getSellmeier g = Some c)
  /\ getSellmeier "NBK7" = Some coeffs_BK7
  /\ getSellmeier "Fused-Silica" = getSellmeier "Fused Silica"
  /\ (forall g, In g ["SF11"; "BAF10"; "LAK9"] ->
        getSellmeier ("N" ++ g) = None).
Proof.
  split; [| split; [| split; [| split]]].
  - intros s1 s2 H. apply getSellmeier_normalised. now rewrite H.
  - intros g c H. cbn [In] in H.
    repeat (destruct H as [H | H]; [injection H as <- <-; split; reflexivity |]).
    destruct H.
  - reflexivity.
  - reflexivity.
  - intros g H. cbn [In] in H.
    repeat (destruct H as [<- | H]; [reflexivity |]).
    destruct H.
Qed.

Lemma getSellmeier_name_variants_witness :
  getSellmeier "n-Bk7" = getSellmeier "N-bK7".
Proof.
  apply (proj1 getSellmeier_name_variants). reflexivity.
Defined.

Local Close Scope string_scope.

(** ** Refractive index evaluator *)

Lemma ltb_nan_l x y : is_nan x = true -> (x <? y) = false.
Proof.
  intros H. apply is_nan_Prim2SF in H. rewrite ltb_spec, H. reflexivity.
Qed.

(** C2 fails at a finite wavelength with the N-BK7 coefficients: at
    1e200 nm the squared wavelength overflows, the Sellmeier terms are
    Infinity / Infinity, and the result is NaN, which is not >= 1. *)
Lemma nFromSellmeier_nan_at_1e200 :
  is_nan (nFromSellmeier 1e200 coeffs_BK7) = true
  /\ (1 <=? nFromSellmeier 1e200 coeffs_BK7) = false.
Proof. split; reflexivity. Qed.

(** C2, amended. [nFromSellmeier] multiplies the wavelength by 1e-3,
    accumulates n^2 = 1 + sum of B_i lam^2 / (lam^2 - C_i), and returns
    the square root of [Math.max(n2, 1)]: exactly 1 when n^2 < 1, NaN
    when n^2 is NaN, and a value >= 1 in every other case. *)
Theorem nFromSellmeier_clamped_root lambdaNm coeffs :
  let n2 := sellmeier_n2 (lambdaNm * 1e-3) coeffs in
  let n := nFromSellmeier lambdaNm coeffs in
  n = Math_sqrt (Math_max [n2; 1])
  /\ ((n2 <? 1) = true -> n = 1)
  /\ (is_nan n2 = true -> is_nan n = true)
  /\ (is_nan n2 = false -> (1 <=? n) = true).
Proof.
  cbv zeta.
  assert (Heq : nFromSellmeier lambdaNm coeffs
                = Math_sqrt (Math_max [sellmeier_n2 (lambdaNm * 1e-3) coeffs; 1]))
    by reflexivity.
  rewrite Heq, Math_max_1. clear Heq.
  set (n2 := sellmeier_n2 (lambdaNm * 1e-3) coeffs).
  split; [reflexivity |]. split; [| split].
  - intros Hlt. destruct (is_nan n2) eqn:Hn.
    + rewrite (ltb_nan_l n2 1 Hn) in Hlt. discriminate Hlt.
    + rewrite Hlt. reflexivity.
  - intros Hn. rewrite Hn. reflexivity.
  - intros Hn. rewrite Hn. destruct (n2 <? 1) eqn:Hlt; [reflexivity |].
    unfold Math_sqrt. rewrite leb_spec, sqrt_spec, Prim2SF_1.
    apply SFsqrt_ge_1.
    + apply Prim2SF_valid.
    + apply is_nan_false_Prim2SF, Hn.
    + rewrite <- Prim2SF_1, <- ltb_spec. exact Hlt.
Qed.

Lemma nFromSellmeier_clamped_root_witness :
  (1 <=? nFromSellmeier 587.6 coeffs_BK7) = true.
Proof.
  apply (nFromSellmeier_clamped_root 587.6 coeffs_BK7). reflexivity.
Defined.

(** ** Dispersion calculator *)

Section Linearity.

Variable Math_pow : number -> number -> number.

(** C4, amended. When the path length and every intermediate value of
    [gddFs2] stay in [[2^-1020, 2^1023)], doubling the path length
    doubles the GDD exactly. *)
Theorem gddFs2_linear_in_length lambdaNm d2n_perNm2 L_mm :
  gddFs2_in_range Math_pow lambdaNm d2n_perNm2 L_mm = true ->
  gddFs2 Math_pow lambdaNm d2n_perNm2 (2 * L_mm)
  = 2 * gddFs2 Math_pow lambdaNm d2n_perNm2 L_mm.
Proof.
  unfold gddFs2_in_range, gddFs2. cbv zeta.
  rewrite !andb_true_iff. intros [[[[[H0 H1] H2] H3] H4] H5].
  rewrite (mul_double _ _ H0 H1), (mul_double _ _ H1 H2), (mul_double _ _ H2 H3).
  rewrite (div_double _ _ H3 H4), (mul_double _ _ H4 H5).
  reflexivity.
Qed.

End Linearity.

Lemma gddFs2_linear_in_length_witness :
  gddFs2 pow_by_multiplication 800 (d2n_dlambda2 800 coeffs_Silica) (2 * 6)
  = 2 * gddFs2 pow_by_multiplication 800 (d2n_dlambda2 800 coeffs_Silica) 6.
Proof.
  apply gddFs2_linear_in_length. reflexivity.
Defined.

(** C4 fails when the doubled path length overflows: at 800 nm with
    d2n = 1e-30 and L = 1e308 mm, [2 * L] is Infinity and so is the GDD,
    while twice the GDD of L is finite. *)
Lemma gddFs2_not_linear_at_overflow :
  gddFs2 pow_by_multiplication 800 1e-30 (2 * 1e308) = infinity
  /\ 2 * gddFs2 pow_by_multiplication 800 1e-30 1e308
     = 5.7720330577441872e+286.
Proof. split; reflexivity. Qed.

(** ** Pulse broadening predictor *)

(** C5 fails outside the range of the squares: the square of 1e200
    overflows and the result is Infinity; the fourth power of 1e-100
    underflows to zero and the result is NaN. *)
Lemma predictedExitPulseWidthFs_zero_dispersion_extremes :
  (0 <? 1e200) = true
  /\ predictedExitPulseWidthFs 1e200 0 0 = infinity
  /\ (0 <? 1e-100) = true
  /\ is_nan (predictedExitPulseWidthFs 1e-100 0 0) = true.
Proof. repeat split; reflexivity. Qed.

(** C5, amended. For an input pulse duration in [[2^-268, 2^512)] zero
    GDD and zero TOD give back the input duration exactly. *)
Theorem predictedExitPulseWidthFs_zero_dispersion tauInFs :
  (0x1p-268 <=? tauInFs) = true -> (tauInFs <? 0x1p512) = true ->
  predictedExitPulseWidthFs tauInFs 0 0 = tauInFs.
Proof.
  intros Hlo Hhi.
  destruct (Prim2SF_in_square_range tauInFs Hlo Hhi) as (m & e & Et & Hm & He).
  destruct (SFmul_square m e false Hm ltac:(lia))
    as (Mt & Et2 & Esq & HMt & HEt & Hhalf & HX).
  assert (Htau2 : Prim2SF (tauInFs * tauInFs) = S754_finite false Mt Et2).
  { rewrite mul_spec, Et. exact Esq. }
  assert (Hpos2 : (0 <? tauInFs * tauInFs) = true).
  { rewrite ltb_spec, Prim2SF_0, Htau2. reflexivity. }
  assert (Hpos4 : (0 <? tauInFs * tauInFs * (tauInFs * tauInFs)) = true).
  { rewrite ltb_spec, Prim2SF_0, mul_spec, Htau2.
    apply SFmul_square_pos; [exact HMt | lia]. }
  unfold predictedExitPulseWidthFs. cbv zeta.
  change (4 * Math_LN2 * (4 * Math_LN2) * 0 * 0) with 0.
  change (4 * Math_LN2 * (4 * Math_LN2) * (4 * Math_LN2) * 0 * 0) with 0.
  rewrite (div_zero_pos _ Hpos2), (div_zero_pos _ Hpos4).
  rewrite !(add_zero_pos _ Hpos2).
  rewrite Math_max_0, Hpos2.
  assert (Hn : is_nan (tauInFs * tauInFs) = false).
  { apply is_nan_false_Prim2SF. rewrite Htau2. discriminate. }
  rewrite Hn. unfold Math_sqrt.
  apply Prim2SF_inj. rewrite sqrt_spec, mul_spec, Et.
  apply SFsqrt_SFmul_square; [exact Hm | lia].
Qed.

Lemma predictedExitPulseWidthFs_zero_dispersion_witness :
  predictedExitPulseWidthFs 100 0 0 = 100.
Proof.
  apply predictedExitPulseWidthFs_zero_dispersion; reflexivity.
Defined.

(** The predictor never returns a negative number. *)
Lemma predictedExitPulseWidthFs_nan_or_nonneg tauInFs gddTotalFs2 todTotalFs3 :
  let r := predictedExitPulseWidthFs tauInFs gddTotalFs2 todTotalFs3 in
  is_nan r = true \/ (0 <=? r) = true.
Proof.
  unfold predictedExitPulseWidthFs. cbv zeta.
  rewrite Math_max_0.
  match goal with |- context [if is_nan ?x then _ else _] => set (v := x) end.
  destruct (is_nan v) eqn:Hnan.
  - left. reflexivity.
  - right. destruct (0 <? v) eqn:Hpos.
    + unfold Math_sqrt. rewrite leb_spec, sqrt_spec, Prim2SF_0.
      apply SFnonneg_leb, SFsqrt_nonneg.
      rewrite <- Prim2SF_0, <- ltb_spec. exact Hpos.
    + reflexivity.
Qed.

(** With usable inputs the predictor returns a number. *)
Lemma predictedExitPulseWidthFs_nonneg tauInFs gddTotalFs2 todTotalFs3 :
  is_nan gddTotalFs2 = false ->
  is_nan todTotalFs3 = false ->
  (0 <? tauInFs * tauInFs * (tauInFs * tauInFs)) = true ->
  (tauInFs * tauInFs * (tauInFs * tauInFs) <? infinity) = true ->
  (0 <=? predictedExitPulseWidthFs tauInFs gddTotalFs2 todTotalFs3) = true.
Proof.
  intros Hg Ht H0 Hinf.
  apply is_nan_false_Prim2SF in Hg, Ht.
  rewrite ltb_spec, Prim2SF_0 in H0. rewrite ltb_spec, Prim2SF_infinity in Hinf.
  destruct (SFltb_pos_finite _ H0 Hinf) as (m4 & e4 & E4).
  assert (E2 : exists m e, Prim2SF (tauInFs * tauInFs) = S754_finite false m e).
  { rewrite mul_spec. apply square_factor_finite.
    rewrite <- !mul_spec. eauto. }
  destruct E2 as (m2 & e2 & E2).
  unfold predictedExitPulseWidthFs. cbv zeta.
  set (a := 4 * Math_LN2).
  set (tau2 := tauInFs * tauInFs) in *.
  set (v := tau2 + _ + _).
  assert (Hv : SFnonneg (Prim2SF v)).
  { unfold v. rewrite !add_spec.
    apply SFadd_nonneg; [apply SFadd_nonneg |].
    - rewrite E2. exact I.
    - rewrite div_spec, E2. apply SFdiv_nonneg.
      rewrite 2!mul_spec.
      destruct four_ln2_squared as (mc & ec & Ec). fold a in Ec. rewrite Ec.
      apply SFmul_square_nonneg. exact Hg.
    - rewrite div_spec, E4. apply SFdiv_nonneg.
      rewrite 2!mul_spec.
      destruct four_ln2_cubed as (mc & ec & Ec). fold a in Ec. rewrite Ec.
      apply SFmul_square_nonneg. exact Ht. }
  rewrite Math_max_0.
  assert (Hn : is_nan v = false).
  { apply is_nan_false_Prim2SF, SFnonneg_not_nan, Hv. }
  rewrite Hn.
  destruct (0 <? v) eqn:Hpos.
  - unfold Math_sqrt. rewrite leb_spec, sqrt_spec, Prim2SF_0.
    apply SFnonneg_leb, SFsqrt_nonneg.
    rewrite <- Prim2SF_0, <- ltb_spec. exact Hpos.
  - reflexivity.
Qed.

(** C6 fails at the input it names: with a zero input duration the GDD
    and TOD terms are 0 / 0 or x / 0, and the result is NaN or Infinity;
    [Math.max(0, NaN)] is NaN. *)
Lemma predictedExitPulseWidthFs_at_zero_duration :
  (0 <=? 0) = true
  /\ is_nan (predictedExitPulseWidthFs 0 0 0) = true
  /\ (0 <=? predictedExitPulseWidthFs 0 0 0) = false
  /\ is_nan (predictedExitPulseWidthFs 0 1 0) = true
  /\ predictedExitPulseWidthFs 0 1 1 = infinity.
Proof. repeat split; reflexivity. Qed.

(** C6, amended. The predictor never returns a negative number: its
    result is NaN or >= 0 (possibly Infinity).  It is >= 0 whenever the
    GDD and TOD totals are not NaN and the fourth power of the input
    duration, as computed, is neither zero nor infinite. *)
Theorem predictedExitPulseWidthFs_range tauInFs gddTotalFs2 todTotalFs3 :
  let r := predictedExitPulseWidthFs tauInFs gddTotalFs2 todTotalFs3 in
  let tau4 := tauInFs * tauInFs * (tauInFs * tauInFs) in
  (is_nan r = true \/ (0 <=? r) = true)
  /\ (is_nan gddTotalFs2 = false -> is_nan todTotalFs3 = false ->
      (0 <? tau4) = true -> (tau4 <? infinity) = true ->
      (0 <=? r) = true).
Proof.
  cbv zeta. split.
  - apply predictedExitPulseWidthFs_nan_or_nonneg.
  - apply predictedExitPulseWidthFs_nonneg.
Qed.

Lemma predictedExitPulseWidthFs_range_witness :
  (0 <=? predictedExitPulseWidthFs 100 69.064412919833416 (-199.17752137177041)) = true.
Proof.
  apply (predictedExitPulseWidthFs_range 100 69.064412919833416 (-199.17752137177041));
    reflexivity.
Defined.

(** * Further properties *)

Local Open Scope Z_scope.

(** ** Rounding a value that is already a binary64 number *)

(** A canonical mantissa shifted left by [n] bits rounds back to itself. *)
Lemma binary_round_aux_representable s m E n :
  0 < m -> 0 <= n ->
  Z.max (Zdigits2 m + E - 53) (-1074) = E ->
  binary_round_aux prec emax s (m * 2 ^ n) (E - n) loc_Exact
  = if E <=? 971 then S754_finite s (Z.to_pos m) E else S754_infinity s.
Proof.
  intros Hm Hn Hc. rewrite binary_round_aux_eq. cbv zeta.
  pose proof (Zdigits2_bounds m Hm) as [Hlo Hhi].
  pose proof (Zdigits2_nonneg m) as Hd0.
  remember (Zdigits2 m) as d eqn:Heqd.
  assert (Hd : 1 <= d).
  { destruct (Z_lt_le_dec d 1); auto.
    assert (2 ^ d <= 2 ^ 0) by (apply Z.pow_le_mono_r; lia).
    change (2 ^ 0) with 1 in *. lia. }
  assert (Hp : 0 < 2 ^ n) by (apply Z.pow_pos_nonneg; lia).
  assert (HdM : Zdigits2 (m * 2 ^ n) = d + n).
  { apply Zdigits2_unique; [| lia].
    replace (d + n - 1) with (d - 1 + n) by lia.
    rewrite !Z.pow_add_r by lia. nia. }
  assert (H1 : shr_fexp prec emax (m * 2 ^ n) (E - n) loc_Exact
               = (Build_shr_record m false false, E)).
  { unfold shr_fexp. rewrite HdM, fexp64.
    replace (Z.max (d + n + (E - n) - 53) (-1074) - (E - n)) with n by lia.
    destruct n as [|p|p]; try lia.
    - cbn [shr shr_record_of_loc]. rewrite Z.mul_1_r, Z.sub_0_r. reflexivity.
    - cbn [shr shr_record_of_loc].
      pose proof (shr_inv_pos (m * 2 ^ Zpos p) p ltac:(lia)) as Hinv.
      pose proof (shr_inv_m _ (Zpos p) _ ltac:(lia) Hinv) as Hq.
      rewrite Z.div_mul in Hq by lia.
      destruct Hinv as [_ (rest & Hrest & HM & Hs)].
      destruct (iter_pos shr_1 p _) as [m1 r1 s1]. cbn [shr_m shr_r shr_s] in *.
      subst m1.
      assert (Hpp : 0 < 2 ^ (Zpos p - 1)) by (apply Z.pow_pos_nonneg; lia).
      assert (Hr : r1 = false) by (destruct r1; [lia | reflexivity]).
      subst r1.
      assert (Hrest0 : rest = 0) by lia. subst rest.
      cbn in Hs. subst s1. f_equal. lia. }
  rewrite H1. cbn [fst snd shr_m loc_of_shr_record round_nearest_even].
  assert (H2 : shr_fexp prec emax m E loc_Exact
               = (Build_shr_record m false false, E)).
  { unfold shr_fexp. rewrite <- Heqd, fexp64.
    replace (Z.max (d + E - 53) (-1074) - E) with 0 by lia. reflexivity. }
  rewrite H2. cbn [fst snd shr_m].
  destruct m as [|p|p]; try lia.
  change (emax - prec) with 971. reflexivity.
Qed.

(** ** Signs *)

Lemma binary_round_aux_opp s M E l :
  binary_round_aux prec emax (negb s) M E l
  = SFopp (binary_round_aux prec emax s M E l).
Proof.
  rewrite !binary_round_aux_eq. cbv zeta.
  destruct (shr_m _); try reflexivity.
  destruct (_ <=? _); reflexivity.
Qed.

Lemma SFopp_involutive x : SFopp (SFopp x) = x.
Proof. destruct x as [s|s| |s m e]; cbn; rewrite ?negb_involutive; reflexivity. Qed.

Lemma SFmul_opp_l x y :
  SFmul prec emax (SFopp x) y = SFopp (SFmul prec emax x y).
Proof.
  destruct x as [sx|sx| |sx mx ex], y as [sy|sy| |sy my ey];
    cbn [SFopp SFmul]; rewrite <- ?negb_xorb_l; try reflexivity.
  apply binary_round_aux_opp.
Qed.

Lemma SFmul_opp_r x y :
  SFmul prec emax x (SFopp y) = SFopp (SFmul prec emax x y).
Proof.
  destruct x as [sx|sx| |sx mx ex], y as [sy|sy| |sy my ey];
    cbn [SFopp SFmul]; rewrite <- ?negb_xorb_r; try reflexivity.
  apply binary_round_aux_opp.
Qed.

Lemma SFdiv_opp_l x y :
  SFdiv prec emax (SFopp x) y = SFopp (SFdiv prec emax x y).
Proof.
  destruct x as [sx|sx| |sx mx ex], y as [sy|sy| |sy my ey];
    cbn [SFopp SFdiv]; rewrite <- ?negb_xorb_l; try reflexivity.
  destruct (SFdiv_core_binary prec emax (Zpos mx) ex (Zpos my) ey) as [[mz ez] lz].
  apply binary_round_aux_opp.
Qed.

Lemma SFabs_cases x : SFabs x = x \/ SFabs x = SFopp x.
Proof. destruct x as [[]|[]| |[] m e]; cbn; auto. Qed.

(** ** Order *)

Lemma SFcompare_antisym x y :
  SFcompare y x = option_map CompOpp (SFcompare x y).
Proof.
  destruct x as [[]|[]| |[] mx ex], y as [[]|[]| |[] my ey];
    cbn [SFcompare option_map]; try reflexivity;
    rewrite (Z.compare_antisym ex ey);
    pose proof (Pos.compare_cont_antisym mx my Eq) as H;
    cbn [CompOpp] in H; rewrite <- H;
    destruct (ex ?= ey); destruct (Pos.compare_cont Eq mx my); reflexivity.
Qed.

Lemma SFleb_negb_ltb x y :
  x <> S754_nan -> y <> S754_nan -> SFleb x y = negb (SFltb y x).
Proof.
  intros Hx Hy. unfold SFleb, SFltb. rewrite (SFcompare_antisym x y).
  destruct x as [[]|[]| |[] mx ex], y as [[]|[]| |[] my ey]; try congruence;
    cbn [SFcompare option_map CompOpp]; try reflexivity;
    destruct (ex ?= ey); try reflexivity;
    destruct (Pos.compare_cont Eq mx my); reflexivity.
Qed.

(** ** Adding a number to itself *)

Lemma SFadd_self m e s :
  bounded prec emax m e = true ->
  SFadd prec emax (S754_finite s m e) (S754_finite s m e)
  = SFmul prec emax (S754_finite false (2 ^ 52) (-51)) (S754_finite s m e).
Proof.
  intros Hb. apply bounded_canonical in Hb. destruct Hb as [Hc He].
  pose proof (Zdigits2_pos_bounds m) as Hd.
  set (d := Zpos (digits2_pos m)) in *.
  assert (Hd1 : 1 <= d) by (unfold d; lia).
  (* the value 2 m 2^e as a canonical pair *)
  assert (Hrep : exists m' E' n1 n2,
             0 < m' /\ 0 <= n1 /\ 0 <= n2
             /\ Z.max (Zdigits2 m' + E' - 53) (-1074) = E'
             /\ Zpos (m + m) = m' * 2 ^ n1 /\ e = E' - n1
             /\ Zpos (2 ^ 52 * m) = m' * 2 ^ n2 /\ -51 + e = E' - n2).
  { destruct (Z_lt_le_dec d 53) as [Hsub | Hnorm].
    - exists (Zpos (m + m)), e, 0, 51.
      assert (Hd2 : Zdigits2 (Zpos (m + m)) = d + 1).
      { apply Zdigits2_unique; [| lia].
        replace (d + 1 - 1) with (d - 1 + 1) by lia.
        rewrite !Z.pow_add_r by lia. change (2 ^ 1) with 2. lia. }
      rewrite Hd2. repeat split; try lia.
    - exists (Zpos m), (e + 1), 1, 52.
      change (Zdigits2 (Zpos m)) with d.
      repeat split; try lia. }
  destruct Hrep as (m' & E' & n1 & n2 & Hm' & Hn1 & Hn2 & Hcan & HM1 & HE1 & HM2 & HE2).
  transitivity (if E' <=? 971 then S754_finite s (Z.to_pos m') E' else S754_infinity s).
  - cbn [SFadd]. rewrite Z.min_id.
    assert (Hal : shl_align m e e = (m, e)).
    { unfold shl_align. rewrite Z.sub_diag. reflexivity. }
    rewrite Hal. cbn [fst].
    assert (Hsum : cond_Zopp s (Zpos m) + cond_Zopp s (Zpos m)
                   = cond_Zopp s (Zpos (m + m))) by (destruct s; reflexivity).
    rewrite Hsum.
    assert (Hbn : binary_normalize prec emax (cond_Zopp s (Zpos (m + m))) e false
                  = binary_round prec emax s (m + m) e) by (destruct s; reflexivity).
    rewrite Hbn. unfold binary_round.
    assert (Hal2 : shl_align (m + m) e (fexp prec emax (Zpos (digits2_pos (m + m)) + e))
                   = (m + m, e)%positive).
    { unfold shl_align. rewrite fexp64.
      pose proof (Zdigits2_pos_bounds (m + m)) as Hdd.
      assert (d + 1 <= Zpos (digits2_pos (m + m))).
      { change (Zpos (digits2_pos (m + m))) with (Zdigits2 (Zpos (m + m))).
        apply Zdigits2_ge; [| lia].
        replace (d + 1 - 1) with (d - 1 + 1) by lia.
        rewrite Z.pow_add_r by lia. change (2 ^ 1) with 2. lia. }
      destruct (Z.max (Zpos (digits2_pos (m + m)) + e - 53) (-1074) - e) eqn:Ez;
        try reflexivity. lia. }
    rewrite Hal2, HM1, HE1.
    apply binary_round_aux_representable; assumption.
  - symmetry. cbn [SFmul xorb]. rewrite HM2, HE2.
    apply binary_round_aux_representable; assumption.
Qed.

Local Close Scope Z_scope.

(** ** Signs, order and doubling on JavaScript numbers *)

Lemma mul_opp_l x y : (- x) * y = - (x * y).
Proof.
  apply Prim2SF_inj. rewrite mul_spec, !opp_spec, mul_spec. apply SFmul_opp_l.
Qed.

Lemma mul_opp_r x y : x * (- y) = - (x * y).
Proof.
  apply Prim2SF_inj. rewrite mul_spec, !opp_spec, mul_spec. apply SFmul_opp_r.
Qed.

Lemma div_opp_l x y : (- x) / y = - (x / y).
Proof.
  apply Prim2SF_inj. rewrite div_spec, !opp_spec, div_spec. apply SFdiv_opp_l.
Qed.

Lemma opp_involutive x : - (- x) = x.
Proof.
  apply Prim2SF_inj. rewrite !opp_spec. apply SFopp_involutive.
Qed.

Lemma abs_cases x : abs x = x \/ abs x = - x.
Proof.
  destruct (SFabs_cases (Prim2SF x)) as [H | H]; [left | right];
    apply Prim2SF_inj; rewrite abs_spec, ?opp_spec; exact H.
Qed.

(** A product in which a factor occurs twice depends on its magnitude
    only. *)
Lemma mul_mul_abs c x : c * abs x * abs x = c * x * x.
Proof.
  destruct (abs_cases x) as [-> | ->]; [reflexivity |].
  rewrite mul_opp_r, mul_opp_r, mul_opp_l, opp_involutive. reflexivity.
Qed.

Lemma mul_abs_abs x : abs x * abs x = x * x.
Proof.
  destruct (abs_cases x) as [-> | ->]; [reflexivity |].
  rewrite mul_opp_r, mul_opp_l, opp_involutive. reflexivity.
Qed.

Lemma leb_negb_ltb x y :
  is_nan x = false -> is_nan y = false -> (x <=? y) = negb (y <? x).
Proof.
  intros Hx Hy. rewrite leb_spec, ltb_spec.
  apply SFleb_negb_ltb; apply is_nan_false_Prim2SF; assumption.
Qed.

(** Adding a contribution twice to a total that starts at zero doubles
    the total: [0 + g + g = 2 * (0 + g)], overflow and NaN included. *)
Lemma add_twice_from_zero g : 0 + g + g = 2 * (0 + g).
Proof.
  apply Prim2SF_inj.
  rewrite mul_spec, !add_spec, Prim2SF_0, Prim2SF_2.
  pose proof (Prim2SF_valid g) as Hv.
  destruct (Prim2SF g) as [[] | [] | | s m e]; try reflexivity.
  unfold SF64add, SF64mul.
  change (SFadd prec emax (S754_zero false) (S754_finite s m e))
    with (S754_finite s m e).
  apply SFadd_self. exact Hv.
Qed.

(** ** The stack aggregator, further *)

Section AggregatorMore.

Variable Math_pow : number -> number -> number.

(** The loop body either leaves the totals alone or adds to each of them
    a contribution that does not depend on the totals. *)
Lemma computeDispersion_step_cases lambdaNm s :
  (forall totals, computeDispersion_step Math_pow lambdaNm totals s = totals)
  \/ exists dg dt, forall g t,
       computeDispersion_step Math_pow lambdaNm (g, t) s = (g + dg, t + dt).
Proof.
  unfold computeDispersion_step.
  destruct (String.eqb (type s) "Air" || (refractiveIndex s <=? 1.01)).
  - left. intros [g t]. reflexivity.
  - destruct (getSellmeier (material s)) as [coeffs |].
    + right. eexists _, _. intros g t. reflexivity.
    + left. intros [g t]. reflexivity.
Qed.

(** A stack in which no element participates (the empty stack included)
    has zero GDD and zero TOD, and its predicted exit pulse is that of a
    dispersion-free path. *)
Theorem computeDispersion_nothing_participates surfaces lambdaNm pulseWidthFs :
  Forall (fun s => type s = "Air"%string
                   \/ (refractiveIndex s <=? 1.01) = true
                   \/ getSellmeier (material s) = None) surfaces ->
  computeDispersion Math_pow surfaces lambdaNm pulseWidthFs
  = {| DispersionResult.gddFs2 := 0;
       DispersionResult.todFs3 := 0;
       DispersionResult.predictedExitPulseWidthFs :=
         predictedExitPulseWidthFs pulseWidthFs 0 0 |}.
Proof.
  intros H. unfold computeDispersion.
  assert (Hfold : fold_left (computeDispersion_step Math_pow lambdaNm) surfaces (0, 0)
                  = (0, 0)).
  { generalize (0, 0) as totals. induction H as [| s l Hs _ IH]; intros totals.
    - reflexivity.
    - cbn [fold_left]. rewrite <- (IH totals) at 2. f_equal.
      destruct Hs as [Hs | [Hs | Hs]].
      + apply step_excluded. now left.
      + apply step_excluded. now right.
      + apply step_unresolved. exact Hs. }
  rewrite Hfold. reflexivity.
Qed.

(** Two copies of an element give exactly twice the GDD and twice the
    TOD of one copy. *)
Theorem computeDispersion_two_copies s lambdaNm pulseWidthFs :
  DispersionResult.gddFs2 (computeDispersion Math_pow [s; s] lambdaNm pulseWidthFs)
  = 2 * DispersionResult.gddFs2 (computeDispersion Math_pow [s] lambdaNm pulseWidthFs)
  /\ DispersionResult.todFs3 (computeDispersion Math_pow [s; s] lambdaNm pulseWidthFs)
     = 2 * DispersionResult.todFs3 (computeDispersion Math_pow [s] lambdaNm pulseWidthFs).
Proof.
  unfold computeDispersion. cbn [fold_left].
  destruct (computeDispersion_step_cases lambdaNm s) as [Hid | (dg & dt & Hadd)].
  - rewrite !Hid. split; reflexivity.
  - rewrite !Hadd. cbn [DispersionResult.gddFs2 DispersionResult.todFs3].
    split; apply add_twice_from_zero.
Qed.

(** TOD is exactly linear in the path length while nothing overflows or
    underflows. *)
Theorem todFs3_linear_in_length lambdaNm d2n_perNm2 d3n_perNm3 L_mm :
  todFs3_in_range Math_pow lambdaNm d2n_perNm2 d3n_perNm3 L_mm = true ->
  todFs3 Math_pow lambdaNm d2n_perNm2 d3n_perNm3 (2 * L_mm)
  = 2 * todFs3 Math_pow lambdaNm d2n_perNm2 d3n_perNm3 L_mm.
Proof.
  unfold todFs3_in_range, todFs3. cbv zeta.
  rewrite !andb_true_iff. intros [[[[[H0 H1] H2] H3] H4] H5].
  rewrite (mul_double _ _ H0 H1), (mul_double _ _ H1 H2), (mul_double _ _ H2 H3).
  rewrite (div_double _ _ H3 H4), (mul_double _ _ H4 H5).
  reflexivity.
Qed.

(** The GDD changes sign, and nothing else, with the sign of the second
    derivative and with the sign of the path length. *)
Theorem gddFs2_odd lambdaNm d2n_perNm2 L_mm :
  gddFs2 Math_pow lambdaNm (- d2n_perNm2) L_mm
  = - gddFs2 Math_pow lambdaNm d2n_perNm2 L_mm
  /\ gddFs2 Math_pow lambdaNm d2n_perNm2 (- L_mm)
     = - gddFs2 Math_pow lambdaNm d2n_perNm2 L_mm.
Proof.
  unfold gddFs2. cbv zeta. split.
  - rewrite mul_opp_l, mul_opp_r, div_opp_l, mul_opp_l. reflexivity.
  - rewrite !mul_opp_l, div_opp_l, mul_opp_l. reflexivity.
Qed.

End AggregatorMore.

(** ** The evaluator and the predictor, further *)

(** The index is the same at [-lambda] and at [lambda]: the wavelength
    enters through its square only. *)
Theorem nFromSellmeier_even lambdaNm coeffs :
  nFromSellmeier (- lambdaNm) coeffs = nFromSellmeier lambdaNm coeffs.
Proof.
  unfold nFromSellmeier. cbv zeta.
  rewrite mul_opp_l, mul_opp_l, mul_opp_r, opp_involutive. reflexivity.
Qed.

(** The predicted width depends on the magnitudes of the input duration,
    of the GDD and of the TOD, not on their signs. *)
Theorem predictedExitPulseWidthFs_magnitudes tauInFs gddTotalFs2 todTotalFs3 :
  predictedExitPulseWidthFs (abs tauInFs) (abs gddTotalFs2) (abs todTotalFs3)
  = predictedExitPulseWidthFs tauInFs gddTotalFs2 todTotalFs3.
Proof.
  unfold predictedExitPulseWidthFs. cbv zeta.
  rewrite !mul_mul_abs, !mul_abs_abs. reflexivity.
Qed.

Lemma nFromSellmeier_nan_or_ge_1 lambdaNm coeffs :
  is_nan (nFromSellmeier lambdaNm coeffs) = true
  \/ (1 <=? nFromSellmeier lambdaNm coeffs) = true.
Proof.
  unfold nFromSellmeier. cbv zeta. rewrite Math_max_1.
  match goal with |- context [if is_nan ?x then _ else _] => set (n2 := x) end.
  destruct (is_nan n2) eqn:Hnan.
  - left. reflexivity.
  - right. destruct (n2 <? 1) eqn:Hlt.
    + reflexivity.
    + unfold Math_sqrt. rewrite leb_spec, sqrt_spec, Prim2SF_1.
      apply SFsqrt_ge_1.
      * apply Prim2SF_valid.
      * apply is_nan_false_Prim2SF, Hnan.
      * rewrite <- Prim2SF_1, <- ltb_spec. exact Hlt.
Qed.

(** With a fallback index of at least 1, the index returned for any
    material name, known or not, is never a number below 1. *)
Theorem refractiveIndexAtWavelength_nan_or_ge_1 lambdaNm material nDefault :
  (1 <=? nDefault) = true ->
  is_nan (refractiveIndexAtWavelength lambdaNm material nDefault) = true
  \/ (1 <=? refractiveIndexAtWavelength lambdaNm material nDefault) = true.
Proof.
  intros Hd. unfold refractiveIndexAtWavelength.
  destruct (getSellmeier material) as [coeffs |].
  - apply nFromSellmeier_nan_or_ge_1.
  - right. exact Hd.
Qed.

Local Open Scope string_scope.

(** ** Strings *)

Lemma toLowerCase_app s1 s2 :
  toLowerCase (s1 ++ s2) = toLowerCase s1 ++ toLowerCase s2.
Proof. induction s1 as [| c r IH]; cbn; [reflexivity | now rewrite IH]. Qed.

Lemma is_white_space_toLowerCase_unit c :
  is_white_space (toLowerCase_unit c) = is_white_space c.
Proof. destruct c as [[] [] [] [] [] [] [] []]; reflexivity. Qed.

Lemma all_white_space_toLowerCase s :
  all_white_space (toLowerCase s) = all_white_space s.
Proof.
  induction s as [| c r IH]; cbn; [reflexivity |].
  now rewrite is_white_space_toLowerCase_unit, IH.
Qed.

Lemma trimStart_app_white w s :
  all_white_space w = true -> trimStart (w ++ s) = trimStart s.
Proof.
  induction w as [| c r IH]; cbn; [reflexivity |].
  intros H. apply andb_true_iff in H. destruct H as [Hc Hr].
  rewrite Hc. auto.
Qed.

Lemma trimEnd_white w : all_white_space w = true -> trimEnd w = "".
Proof.
  induction w as [| c r IH]; cbn; [reflexivity |].
  intros H. apply andb_true_iff in H. destruct H as [Hc Hr].
  rewrite (IH Hr), Hc. reflexivity.
Qed.

Lemma trimEnd_app_white s w :
  all_white_space w = true -> trimEnd (s ++ w) = trimEnd s.
Proof.
  intros Hw. induction s as [| c r IH]; cbn.
  - now apply trimEnd_white.
  - now rewrite IH.
Qed.

Lemma trimStart_white w : all_white_space w = true -> trimStart w = "".
Proof.
  induction w as [| c r IH]; cbn; [reflexivity |].
  intros H. apply andb_true_iff in H. destruct H as [Hc Hr].
  rewrite Hc. auto.
Qed.

Lemma trim_app_white w1 s w2 :
  all_white_space w1 = true -> all_white_space w2 = true ->
  trim (w1 ++ s ++ w2) = trim s.
Proof.
  intros H1 H2. unfold trim. rewrite trimStart_app_white by assumption.
  induction s as [| c r IH].
  - cbn [append]. rewrite trimStart_white by assumption. reflexivity.
  - cbn [append trimStart]. destruct (is_white_space c).
    + exact IH.
    + change (String c (r ++ w2)) with (String c r ++ w2).
      now apply trimEnd_app_white.
Qed.

Lemma trim_white w : all_white_space w = true -> trim w = "".
Proof. intros H. unfold trim. now rewrite trimStart_white. Qed.




(** ** Tables *)

Lemma lookup_Some_In {V} key (table : list (string * V)) v :
  lookup key table = Some v -> In (key, v) table.
Proof.
  induction table as [| [k w] rest IH]; cbn; [discriminate |].
  destruct (String.eqb_spec k key) as [-> | Hne].
  - intros H. injection H as ->. now left.
  - intros H. right. auto.
Qed.

(** ** The registry, further *)

(** White space around a material name is ignored. *)
Theorem getSellmeier_ignores_white_space w1 name w2 :
  all_white_space w1 = true -> all_white_space w2 = true ->
  getSellmeier (w1 ++ name ++ w2) = getSellmeier name.
Proof.
  intros H1 H2. unfold getSellmeier.
  rewrite !toLowerCase_app, trim_app_white; [reflexivity | |];
    now rewrite all_white_space_toLowerCase.
Qed.

(** No alias dangles: a name resolves exactly when its normal form is an
    alias of the table. *)
Theorem getSellmeier_none_iff name :
  getSellmeier name = None
  <-> lookup (trim (toLowerCase name)) MATERIAL_TO_SELLMEIER = None.
Proof.
  unfold getSellmeier.
  destruct (lookup (trim (toLowerCase name)) MATERIAL_TO_SELLMEIER) as [key |] eqn:E;
    [| tauto].
  apply lookup_Some_In in E. cbn [MATERIAL_TO_SELLMEIER In] in E.
  split; [| discriminate].
  repeat (destruct E as [E | E]; [injection E as _ <-; discriminate |]).
  destruct E.
Qed.

(** ** The material table *)

Lemma toLowerCase_unit_idempotent c :
  toLowerCase_unit (toLowerCase_unit c) = toLowerCase_unit c.
Proof. destruct c as [[] [] [] [] [] [] [] []]; reflexivity. Qed.

Lemma toLowerCase_idempotent s : toLowerCase (toLowerCase s) = toLowerCase s.
Proof.
  induction s as [| c r IH]; cbn; [reflexivity |].
  now rewrite toLowerCase_unit_idempotent, IH.
Qed.

(** A lowercased string is a fixed point of [toLowerCase]. *)
Lemma toLowerCase_image s t : toLowerCase s = t -> toLowerCase t = t.
Proof. intros <-. apply toLowerCase_idempotent. Qed.

(** Of the names inherited from [Object.prototype] only "constructor" and
    "__proto__" are lowercase. *)
Lemma inherited_lowercase s :
  toLowerCase s <> "constructor" -> toLowerCase s <> "__proto__" ->
  existsb (String.eqb (toLowerCase s)) Object_prototype_names = false.
Proof.
  intros Hc Hp. cbn [existsb Object_prototype_names].
  repeat match goal with
  | |- context [String.eqb (toLowerCase s) ?k] =>
      destruct (String.eqb_spec (toLowerCase s) k) as [E | _];
      [ first [ contradiction
              | apply toLowerCase_image in E; discriminate E ] |]
  end.
  reflexivity.
Qed.

Lemma MATERIAL_INDEX_values k n :
  In (k, n) MATERIAL_INDEX -> (1 <=? n)%float = true /\ (n <? 3)%float = true.
Proof.
  cbn [MATERIAL_INDEX In]. intros H.
  repeat (destruct H as [H | H]; [injection H as _ <-; split; reflexivity |]).
  destruct H.
Qed.

Lemma leb_not_nan_r x y : (x <=? y)%float = true -> is_nan y = false.
Proof.
  rewrite leb_spec. intros H. apply is_nan_false_Prim2SF. intros E.
  rewrite E in H. destruct (Prim2SF x) as [| | |]; discriminate H.
Qed.

Section MaterialsFacts.

Variable parseFloat : string -> number.
Variable Number_toString : number -> string.
Variable toFixed : number -> nat -> string.

(** Whatever is typed, short of the two inherited names, the parsed index
    is a number in [[1, 3)]. *)
Theorem parseMaterialIndex_index_range input :
  toLowerCase (trim input) <> "constructor" ->
  toLowerCase (trim input) <> "__proto__" ->
  exists n,
    MaterialParseResult.refractiveIndex
      (parseMaterialIndex parseFloat Number_toString toFixed input)
    = ParsedNumber n
    /\ (1 <=? n)%float = true /\ (n <? 3)%float = true.
Proof.
  intros Hc Hp. unfold parseMaterialIndex. cbv zeta.
  destruct (trim input) as [| a r] eqn:Et.
  { exists 1%float. repeat split; reflexivity. }
  unfold get.
  destruct (lookup (toLowerCase (String a r)) MATERIAL_INDEX) as [n |] eqn:El.
  { exists n. split; [reflexivity |].
    apply lookup_Some_In in El. eapply MATERIAL_INDEX_values, El. }
  rewrite (inherited_lowercase _ Hc Hp).
  destruct (negb (is_nan (parseFloat (String a r)))
            && (1 <=? parseFloat (String a r))%float
            && (parseFloat (String a r) <? 3)%float) eqn:Ev.
  - apply andb_true_iff in Ev. destruct Ev as [Ev H3].
    apply andb_true_iff in Ev. destruct Ev as [_ H1].
    eexists. split; [reflexivity |]. split; assumption.
  - exists 1%float. repeat split; reflexivity.
Qed.

(** The type tag and the index of a parse result agree, in the terms of
    the two tests of [computeDispersion]: "Glass" goes with an index
    above 1.01, "Air" with an index of at most 1.01. *)
Theorem parseMaterialIndex_type_matches_index input n :
  MaterialParseResult.refractiveIndex
    (parseMaterialIndex parseFloat Number_toString toFixed input)
  = ParsedNumber n ->
  let type :=
    MaterialParseResult.type
      (parseMaterialIndex parseFloat Number_toString toFixed input) in
  (type = "Glass" /\ (n <=? 1.01)%float = false)
  \/ (type = "Air" /\ (n <=? 1.01)%float = true).
Proof.
  cbv zeta.
  assert (Hagree : forall x, (1 <=? x)%float = true ->
            ((if (1.01 <? x)%float then "Glass" else "Air") = "Glass"
             /\ (x <=? 1.01)%float = false)
            \/ ((if (1.01 <? x)%float then "Glass" else "Air") = "Air"
                /\ (x <=? 1.01)%float = true)).
  { intros x Hx. rewrite (leb_negb_ltb x 1.01 (leb_not_nan_r _ _ Hx) eq_refl).
    destruct (1.01 <? x)%float; [left | right]; split; reflexivity. }
  unfold parseMaterialIndex. cbv zeta.
  destruct (trim input) as [| a r] eqn:Et.
  { cbn. intros H. injection H as <-. right. split; reflexivity. }
  unfold get.
  destruct (lookup (toLowerCase (String a r)) MATERIAL_INDEX) as [m |] eqn:El.
  { cbn [MaterialParseResult.refractiveIndex MaterialParseResult.type].
    intros H. injection H as ->.
    apply Hagree. apply lookup_Some_In in El.
    eapply MATERIAL_INDEX_values, El. }
  destruct (existsb _ Object_prototype_names).
  { cbn. discriminate. }
  destruct (negb (is_nan (parseFloat (String a r)))
            && (1 <=? parseFloat (String a r))%float
            && (parseFloat (String a r) <? 3)%float) eqn:Ev.
  - apply andb_true_iff in Ev. destruct Ev as [Ev H3].
    apply andb_true_iff in Ev. destruct Ev as [_ H1].
    cbn [MaterialParseResult.refractiveIndex MaterialParseResult.type].
    intros H. injection H as <-. now apply Hagree.
  - cbn. intros H. injection H as <-. right. split; reflexivity.
Qed.

(** Blank input, the empty string included, is air. *)
Theorem parseMaterialIndex_blank input :
  all_white_space input = true ->
  parseMaterialIndex parseFloat Number_toString toFixed input = air_result.
Proof.
  intros H. unfold parseMaterialIndex. cbv zeta.
  rewrite (trim_white _ H). reflexivity.
Qed.

(** A name inherited from [Object.prototype], in any letter case and
    with white space around it, parses to an index that is no number,
    tagged "Air". *)
Theorem parseMaterialIndex_inherited_name input :
  toLowerCase (trim input) = "constructor"
  \/ toLowerCase (trim input) = "__proto__" ->
  parseMaterialIndex parseFloat Number_toString toFixed input
  = {| MaterialParseResult.refractiveIndex := ParsedObject;
       MaterialParseResult.material := trim input;
       MaterialParseResult.type := "Air" |}.
Proof.
  intros H. unfold parseMaterialIndex. cbv zeta.
  destruct (trim input) as [| a r] eqn:Et.
  { destruct H as [H | H]; discriminate H. }
  destruct H as [-> | ->]; reflexivity.
Qed.

(** The tag is "Glass" or "Air" and the display string is never empty. *)
Theorem parseMaterialIndex_well_formed input :
  let r := parseMaterialIndex parseFloat Number_toString toFixed input in
  (MaterialParseResult.type r = "Glass" \/ MaterialParseResult.type r = "Air")
  /\ MaterialParseResult.material r <> "".
Proof.
  cbv zeta. unfold parseMaterialIndex. cbv zeta.
  destruct (trim input) as [| a r] eqn:Et.
  { cbn. split; [now right | discriminate]. }
  destruct (get (toLowerCase (String a r)) MATERIAL_INDEX) as [n | |].
  - cbn [MaterialParseResult.type MaterialParseResult.material]. split.
    + destruct (1.01 <? n)%float; auto.
    + destruct (n =? 1)%float; discriminate.
  - cbn. split; [now right | discriminate].
  - destruct (negb _ && _ && _).
    + cbn [MaterialParseResult.type MaterialParseResult.material]. split.
      * destruct (1.01 <? _)%float; auto.
      * destruct (lookup _ MATERIAL_DISPLAY) as [d |] eqn:Ed; [| discriminate].
        apply lookup_Some_In in Ed. cbn [MATERIAL_DISPLAY In] in Ed.
        repeat (destruct Ed as [Ed | Ed]; [injection Ed as _ <-; discriminate |]).
        destruct Ed.
    + cbn. split; [now right | discriminate].
Qed.


(** [formatMaterialIndex] never returns the empty string. *)
Theorem formatMaterialIndex_not_empty material refractiveIndex :
  formatMaterialIndex Number_toString toFixed material refractiveIndex <> "".
Proof.
  unfold formatMaterialIndex.
  destruct (refractiveIndex <=? 1.001)%float; [discriminate |]. cbv zeta.
  destruct (lookup _ MATERIAL_DISPLAY) as [d |] eqn:Ed.
  - apply lookup_Some_In in Ed. cbn [MATERIAL_DISPLAY In] in Ed.
    repeat (destruct Ed as [Ed | Ed]; [injection Ed as _ <-; discriminate |]).
    destruct Ed.
  - destruct (String.eqb_spec material ""); cbn [negb andb]; [discriminate |].
    destruct (negb _); [assumption | discriminate].
Qed.

End MaterialsFacts.

(** ** Presets *)

(** A preset is returned only for an index within the tolerance of that
    preset's index. *)
Theorem getPresetForIndex_sound n :
  getPresetForIndex n = "custom"
  \/ exists p, In p MATERIAL_PRESETS
       /\ getPresetForIndex n = MaterialPreset.value p
       /\ (abs (n - MaterialPreset.n p) <? PRESET_TOLERANCE)%float = true.
Proof.
  unfold getPresetForIndex.
  destruct (find _ MATERIAL_PRESETS) as [p |] eqn:E; [right | now left].
  apply find_some in E. destruct E as [Hin Hp]. exists p. auto.
Qed.

(** Preset to index and back: a preset value comes back as itself, any
    other value as "custom". *)
Theorem getPresetForIndex_getIndexForPreset value :
  getPresetForIndex (getIndexForPreset value)
  = if existsb (String.eqb value) ["air"; "bk7"; "sf11"] then value
    else "custom".
Proof.
  unfold getIndexForPreset. cbn [find MATERIAL_PRESETS MaterialPreset.value existsb].
  rewrite (String.eqb_sym value "air"), (String.eqb_sym value "bk7"),
    (String.eqb_sym value "sf11").
  destruct (String.eqb_spec "air" value) as [<- | _]; [reflexivity |].
  destruct (String.eqb_spec "bk7" value) as [<- | _]; [reflexivity |].
  destruct (String.eqb_spec "sf11" value) as [<- | _]; reflexivity.
Qed.

Section MaterialsFacts2.

Variable parseFloat : string -> number.
Variable Number_toString : number -> string.
Variable toFixed : number -> nat -> string.

(** White space around the input is ignored. *)
Theorem parseMaterialIndex_ignores_white_space w1 input w2 :
  all_white_space w1 = true -> all_white_space w2 = true ->
  parseMaterialIndex parseFloat Number_toString toFixed (w1 ++ input ++ w2)
  = parseMaterialIndex parseFloat Number_toString toFixed input.
Proof.
  intros H1 H2. unfold parseMaterialIndex.
  rewrite (trim_app_white _ _ _ H1 H2). reflexivity.
Qed.

(** The dropdown and the material table agree: the value of a preset,
    typed as a material name, parses to the index of that preset, which
    is also what [getIndexForPreset] returns for it. *)
Theorem MATERIAL_PRESETS_agree_with_MATERIAL_INDEX p :
  In p MATERIAL_PRESETS ->
  MaterialParseResult.refractiveIndex
    (parseMaterialIndex parseFloat Number_toString toFixed
       (MaterialPreset.value p))
  = ParsedNumber (MaterialPreset.n p)
  /\ getIndexForPreset (MaterialPreset.value p) = MaterialPreset.n p.
Proof.
  cbn [MATERIAL_PRESETS In].
  intros [<- | [<- | [<- | []]]]; split; reflexivity.
Qed.

End MaterialsFacts2.

(** ** Witnesses *)

Lemma computeDispersion_nothing_participates_witness :
  computeDispersion pow_by_multiplication
    [air_gap; low_index; unobtainium] 800 100
  = {| DispersionResult.gddFs2 := 0;
       DispersionResult.todFs3 := 0;
       DispersionResult.predictedExitPulseWidthFs :=
         predictedExitPulseWidthFs 100 0 0 |}.
Proof.
  apply computeDispersion_nothing_participates.
  apply Forall_cons; [left; reflexivity |].
  apply Forall_cons; [right; left; reflexivity |].
  apply Forall_cons; [right; right; reflexivity |].
  apply Forall_nil.
Defined.

Lemma todFs3_linear_in_length_witness :
  todFs3 pow_by_multiplication 800
    (d2n_dlambda2 800 coeffs_Silica) (d3n_dlambda3 800 coeffs_Silica) (2 * 6)
  = 2 * todFs3 pow_by_multiplication 800
          (d2n_dlambda2 800 coeffs_Silica) (d3n_dlambda3 800 coeffs_Silica) 6.
Proof.
  apply todFs3_linear_in_length. reflexivity.
Defined.

Lemma refractiveIndexAtWavelength_nan_or_ge_1_witness :
  is_nan (refractiveIndexAtWavelength 800 "N-BK7" 1.5168) = true
  \/ (1 <=? refractiveIndexAtWavelength 800 "N-BK7" 1.5168)%float = true.
Proof.
  apply refractiveIndexAtWavelength_nan_or_ge_1. reflexivity.
Defined.

Lemma getSellmeier_ignores_white_space_witness :
  getSellmeier ("  " ++ "Fused Silica" ++ " ") = getSellmeier "Fused Silica".
Proof.
  apply getSellmeier_ignores_white_space; reflexivity.
Defined.

Lemma parseMaterialIndex_index_range_witness :
  exists n,
    MaterialParseResult.refractiveIndex
      (parseMaterialIndex (fun _ => nan) (fun _ => "NaN") (fun _ _ => "NaN")
         " N-SF11")
    = ParsedNumber n
    /\ (1 <=? n)%float = true /\ (n <? 3)%float = true.
Proof.
  apply parseMaterialIndex_index_range; discriminate.
Defined.

Lemma parseMaterialIndex_type_matches_index_witness :
  (MaterialParseResult.type
     (parseMaterialIndex (fun _ => nan) (fun _ => "NaN") (fun _ _ => "NaN")
        "Sapphire") = "Glass"
   /\ (1.77 <=? 1.01)%float = false)
  \/ (MaterialParseResult.type
        (parseMaterialIndex (fun _ => nan) (fun _ => "NaN") (fun _ _ => "NaN")
           "Sapphire") = "Air"
      /\ (1.77 <=? 1.01)%float = true).
Proof.
  apply (parseMaterialIndex_type_matches_index
           (fun _ => nan) (fun _ => "NaN") (fun _ _ => "NaN") "Sapphire" 1.77).
  reflexivity.
Defined.

Lemma parseMaterialIndex_blank_witness :
  parseMaterialIndex (fun _ => nan) (fun _ => "NaN") (fun _ _ => "NaN") "   "
  = air_result.
Proof.
  apply parseMaterialIndex_blank. reflexivity.
Defined.

Lemma parseMaterialIndex_inherited_name_witness :
  parseMaterialIndex (fun _ => nan) (fun _ => "NaN") (fun _ _ => "NaN")
    " Constructor"
  = {| MaterialParseResult.refractiveIndex := ParsedObject;
       MaterialParseResult.material := "Constructor";
       MaterialParseResult.type := "Air" |}.
Proof.
  apply (parseMaterialIndex_inherited_name
           (fun _ => nan) (fun _ => "NaN") (fun _ _ => "NaN") " Constructor").
  left. reflexivity.
Defined.


Lemma parseMaterialIndex_ignores_white_space_witness :
  parseMaterialIndex (fun _ => nan) (fun _ => "NaN") (fun _ _ => "NaN")
    (" " ++ "bk7" ++ "  ")
  = parseMaterialIndex (fun _ => nan) (fun _ => "NaN") (fun _ _ => "NaN") "bk7".
Proof.
  apply parseMaterialIndex_ignores_white_space; reflexivity.
Defined.

Lemma MATERIAL_PRESETS_agree_with_MATERIAL_INDEX_witness :
  MaterialParseResult.refractiveIndex
    (parseMaterialIndex (fun _ => nan) (fun _ => "NaN") (fun _ _ => "NaN")
       "sf11")
  = ParsedNumber 1.78472
  /\ getIndexForPreset "sf11" = 1.78472.
Proof.
  apply (MATERIAL_PRESETS_agree_with_MATERIAL_INDEX
           (fun _ => nan) (fun _ => "NaN") (fun _ _ => "NaN")
           {| MaterialPreset.value := "sf11";
              MaterialPreset.label := "SF11 (1.785)";
              MaterialPreset.n := 1.78472 |}).
  right. right. left. reflexivity.
Defined.

Local Close Scope string_scope.
